(** * postcss-inline-extract: the extraction core of [src/extract.ts]

    A shallow embedding of the selector generator, the selector comparator,
    the property normalizer, the merge step, the extraction loop and the
    serializer, together with the properties of the specification that
    concern them.

    Conventions of the embedding.
    - A JavaScript string is a [string]; a character is one UTF-16 code unit
      in the range U+0000..U+00FF, so [ascii] order is code-unit order.
    - [Array.prototype.sort()] without comparator orders strings by code
      units.  That order is total and antisymmetric, so the sorted
      permutation of a list is unique ([sort_unique]) and any sorting
      algorithm denotes the same function; [sort] is a merge sort.
    - The HTML parser, the CSS parser and [Math.random] are external.  Their
      answers are inputs of the model: the elements selected by
      [querySelectorAll], the outcome of [parse] on each style block, and the
      successive renderings [Math.random().toString(36)] that
      [generateHash] reads.  What the CSS parser itself reads of
      [Math.random] is not modelled: it does so after the last call of
      [generateHash], and nothing is said here about the random source once
      the loop over the style blocks has begun. *)

From Stdlib Require Import ZArith Ascii.
From stdpp Require Import base tactics option list sorting strings.


(** ** JavaScript string primitives *)

Module Js.

(** [WhiteSpace] and [LineTerminator] code units below U+0100: what
    [String.prototype.trim] strips and what [\s] matches. *)
Definition isWhiteSpace (c : ascii) : bool :=
  match N_of_ascii c with
  | 9 | 10 | 11 | 12 | 13 | 32 | 160 => true
  | _ => false
  end%N.

(** [\d] *)
Definition isDigit (c : ascii) : bool :=
  (N.leb 48 (N_of_ascii c) && N.leb (N_of_ascii c) 57)%bool.

(** [[a-z]] *)
Definition isLower (c : ascii) : bool :=
  (N.leb 97 (N_of_ascii c) && N.leb (N_of_ascii c) 122)%bool.

(** A string is truthy when it is not empty. *)
Definition truthy (s : string) : bool :=
  match s with "" => false | String _ _ => true end.

(** [a || b] on strings. *)
Definition or_else (a b : string) : string := if truthy a then a else b.

Fixpoint trimStart (s : string) : string :=
  match s with
  | "" => ""
  | String c r => if isWhiteSpace c then trimStart r else s
  end.

Fixpoint trimEnd (s : string) : string :=
  match s with
  | "" => ""
  | String c r =>
      let r' := trimEnd r in
      if (isWhiteSpace c && negb (truthy r'))%bool then "" else String c r'
  end.

Definition trim (s : string) : string := trimStart (trimEnd s).

(** [s.split(sep)] for a one-character separator: never an empty array. *)
Fixpoint split (sep : ascii) (s : string) : list string :=
  match s with
  | "" => [""]
  | String c r =>
      if Ascii.eqb c sep then "" :: split sep r
      else match split sep r with
           | p :: ps => String c p :: ps
           | [] => [String c ""]
           end
  end.

(** [list.join(sep)] *)
Definition join (sep : string) (l : list string) : string := String.concat sep l.

(** [s.slice(n)] for [0 <= n]. *)
Fixpoint slice (n : nat) (s : string) : string :=
  match n, s with
  | O, _ => s
  | S n', String _ r => slice n' r
  | S _, "" => ""
  end.

(** [''.padStart(n, ' ')] *)
Fixpoint spaces (n : nat) : string :=
  match n with O => "" | S n' => String " " (spaces n') end.

(** [s.replace(/^([^c])/, 'c$1')]: put [c] in front of a non-empty string
    that does not start with it. *)
Definition prefixUnless (c : ascii) (s : string) : string :=
  match s with
  | "" => ""
  | String c0 _ => if Ascii.eqb c0 c then s else String c s
  end.

Definition startsWithSpace (s : string) : bool :=
  match s with String c _ => Ascii.eqb c " " | "" => false end.

(** [s.replace(/  +/g, ' ')]: every run of two or more spaces becomes one. *)
Fixpoint collapseSpaces (s : string) : string :=
  match s with
  | "" => ""
  | String c r =>
      if (Ascii.eqb c " " && startsWithSpace r)%bool then collapseSpaces r
      else String c (collapseSpaces r)
  end.

(** [s.replace(/c/g, by)] for a one-character pattern. *)
Fixpoint replaceChar (c : ascii) (by_ : string) (s : string) : string :=
  match s with
  | "" => ""
  | String c0 r =>
      if Ascii.eqb c0 c then by_ +:+ replaceChar c by_ r
      else String c0 (replaceChar c by_ r)
  end.

(** [s.replace(/ +,/g, ', ')].  The scan keeps the length of the run of
    spaces read so far: a comma closing a non-empty run is a match and the
    run with its comma becomes [", "]; any other character gives the run
    back unchanged, because no match can start inside it. *)
Fixpoint spacesComma (pending : nat) (s : string) : string :=
  match s with
  | "" => spaces pending
  | String c r =>
      if Ascii.eqb c " " then spacesComma (S pending) r
      else if Ascii.eqb c "," then
        (match pending with O => "," | S _ => ", " end) +:+ spacesComma 0 r
      else spaces pending +:+ String c (spacesComma 0 r)
  end.

(** [Array.prototype.sort()] on strings. *)
Definition sort (l : list string) : list string := merge_sort String.le l.

(** [list.indexOf(x)]: the first position of [x], or [-1]. *)
Fixpoint indexOf (l : list string) (x : string) : Z :=
  match l with
  | [] => -1
  | y :: l' =>
      if String.eqb y x then 0
      else let i := indexOf l' x in if (i <? 0)%Z then -1 else (i + 1)%Z
  end.

(** [list.findIndex(p)]: the first position satisfying [p], or [-1]. *)
Fixpoint findIndex {A} (p : A -> bool) (l : list A) : Z :=
  match l with
  | [] => -1
  | y :: l' =>
      if p y then 0
      else let i := findIndex p l' in if (i <? 0)%Z then -1 else (i + 1)%Z
  end.

End Js.

Import Js.

(** ** Data *)

(** ['class' | 'id' | 'hash'] *)
Module SelectorType.
Inductive t := class | id | hash.

Definition eqb (a b : t) : bool :=
  match a, b with
  | class, class | id, id | hash, hash => true
  | _, _ => false
  end.
End SelectorType.

(** [SelectorType | SelectorType[]] *)
Inductive SelectorOption :=
| One (type : SelectorType.t)
| Many (types : list SelectorType.t).

(** [Array.isArray(selector) ? selector : [selector]] *)
Definition strategies (selector : SelectorOption) : list SelectorType.t :=
  match selector with One type => [type] | Many types => types end.

Record Style := mkStyle { selector : string; props : list string }.

(** What the extraction reads of one element of
    [querySelectorAll('[style]')]: its [class], [id] and [style] attributes,
    [None] when the attribute is absent. *)
Record Element := mkElement {
  attr_class : option string;
  attr_id : option string;
  attr_style : option string
}.

(** A child of a CSS rule: a declaration, or a node of another type
    (comment, nested rule, at-rule). *)
Inductive Node :=
| decl (prop value : string)
| other.

(** A rule visited by [walkRules]. *)
Record Rule := mkRule { rule_selector : string; nodes : list Node }.

(** The error raised by the CSS parser. *)
Record CssSyntaxError := mkError { message : string }.

(** The outcome of [parse(el.textContent)] for one style block: the error
    it throws, or the rules that [walkRules] visits, in order. *)
Definition StyleBlock : Type := CssSyntaxError + list Rule.

(** The parsed [html]: the answers of the two [querySelectorAll] calls. *)
Record Document := mkDocument {
  styled : list Element;
  styleBlocks : list StyleBlock
}.

(** [Required<PluginOptions>]; the field [selector] is [selectorOption]
    here, [selector] being the field of [Style]. *)
Record Options := mkOptions {
  html : Document;
  selectorOption : SelectorOption;
  styleTags : bool;
  indent : nat
}.

(** ** Effects: the random source and the parser's exception

    A computation reads a finite supply of draws, each draw being the string
    [Math.random().toString(36)] of one round of [generateHash].  It returns
    a value with the draws [generateHash] has not read, throws, or is still
    inside the loop of [generateHash] when the supply ends ([Pending]). *)

Inductive outcome (A : Type) :=
| Returned (a : A) (rest : list string)
| Thrown (e : CssSyntaxError)
| Pending.
Arguments Returned {A} a rest.
Arguments Thrown {A} e.
Arguments Pending {A}.

Definition M (A : Type) : Type := list string -> outcome A.

Definition ret {A} (a : A) : M A := fun draws => Returned a draws.

Definition throw {A} (e : CssSyntaxError) : M A := fun _ => Thrown e.

Definition bind {A B} (m : M A) (k : A -> M B) : M B :=
  fun draws =>
    match m draws with
    | Returned a rest => k a rest
    | Thrown e => Thrown e
    | Pending => Pending
    end.

Notation "x <- m ;; k" := (bind m (fun x => k))
  (at level 100, m at next level, right associativity).

(** A [for ... of] loop, or a [reduce], whose body has effects. *)
Fixpoint foldM {A B} (f : A -> B -> M A) (a : A) (l : list B) : M A :=
  match l with
  | [] => ret a
  | b :: l' => a' <- f a b ;; foldM f a' l'
  end.

(** ** The formatters *)

Definition formatClass (selector : string) : string :=
  replaceChar " " "." (collapseSpaces (prefixUnless "." (trim selector))).

Definition formatId (selector : string) : string :=
  prefixUnless "#" (trim selector).

Definition formatSelector (selector : string) : string :=
  collapseSpaces (spacesComma 0 (replaceChar ">" " > " (trim selector))).

(** One step of the [reduce] of [formatProps]. *)
Definition pushProp (acc : list string) (prop : string) : list string :=
  if truthy (trim prop) then acc ++ [join ": " (map trim (split ":" prop))]
  else acc.

Definition formatProps (props : option string) : list string :=
  match props with
  | None => []
  | Some props => sort (fold_left pushProp (split ";" props) [])
  end.

(** ** The selector generator *)

(** [/^\d/.test(s)] *)
Definition template (s : string) : bool :=
  match s with String c _ => isDigit c | "" => false end.

(** The [do ... while] loop: one draw per round. *)
Fixpoint generateHash (draws : list string) : outcome string :=
  match draws with
  | [] => Pending
  | random :: rest =>
      let hash := slice 2 random in
      if template hash then generateHash rest else Returned hash rest
  end.

(** The callback of the [reduce]: the condition of the outer conditional is
    [name || type === 'class']. *)
Definition selectorStep (className id : string)
    (name : string) (type : SelectorType.t) : M string :=
  if (truthy name || SelectorType.eqb type SelectorType.class)%bool then
    ret (formatClass (or_else className ""))
  else if SelectorType.eqb type SelectorType.id then
    ret (formatId (or_else id ""))
  else
    hash <- generateHash ;; ret ("." +:+ hash).

Definition generateSelector (className id : string)
    (selector : SelectorOption) : M string :=
  foldM (selectorStep className id) "" (strategies selector).

(** ** The comparator and the merge *)

(** [/[\s>+~(),]/.test(s)] *)
Definition isCombinator (c : ascii) : bool :=
  (isWhiteSpace c ||
   match c with
   | ">" | "+" | "~" | "(" | ")" | "," => true
   | _ => false
   end%char)%bool.

Fixpoint hasCombinator (s : string) : bool :=
  match s with
  | "" => false
  | String c r => (isCombinator c || hasCombinator r)%bool
  end.

Definition compareSelector (selector1 selector2 : string) : bool :=
  if (hasCombinator selector1 || hasCombinator selector2)%bool then
    String.eqb selector1 selector2
  else
    String.eqb (join "." (sort (split "." selector1)))
               (join "." (sort (split "." selector2))).

(** The body of the [for ... of] loop of [mergeProps]. *)
Definition pushNew (props : list string) (prop : string) : list string :=
  if (indexOf props prop <? 0)%Z then props ++ [prop] else props.

Definition mergeProps (props1 props2 : list string) : list string :=
  sort (fold_left pushNew props2 props1).

(** The body shared by the two loops of [extractStyles]: look for an entry
    with an equivalent selector, merge into it, or push a new entry. *)
Definition upsert (result : list Style) (value : string)
    (newProps : list string) : list Style :=
  let index := findIndex (fun style => compareSelector (selector style) value)
                         result in
  match (if (-1 <? index)%Z then result !! Z.to_nat index else None) with
  | Some style =>
      <[Z.to_nat index :=
          mkStyle (selector style) (mergeProps (props style) newProps)]> result
  | None => result ++ [mkStyle value newProps]
  end.

(** ** The extraction *)

(** [el.attributes.name || ''] *)
Definition attribute (a : option string) : string :=
  match a with Some v => or_else v "" | None => "" end.

(** The body of the loop over the elements carrying a [style] attribute. *)
Definition elementStep (selector : SelectorOption)
    (result : list Style) (el : Element) : M (list Style) :=
  value <- generateSelector (attribute (attr_class el))
                            (attribute (attr_id el)) selector ;;
  ret (if truthy value then upsert result value (formatProps (attr_style el))
       else result).

(** [rule.nodes.filter(node => node.type === 'decl').map(...)] *)
Definition declarations (ns : list Node) : list string :=
  omap (fun node =>
          match node with
          | decl prop value => Some (prop +:+ ": " +:+ value)
          | other => None
          end) ns.

(** The callback of [walkRules]. *)
Definition ruleStep (result : list Style) (rule : Rule) : list Style :=
  upsert result (formatSelector (rule_selector rule))
         (declarations (nodes rule)).

(** The body of the loop over the style blocks.  The supply is handed on as
    it is because no call of [generateHash] happens here; the parser's own
    use of [Math.random] is outside the model. *)
Definition styleBlockStep (result : list Style) (el : StyleBlock)
    : M (list Style) :=
  match el with
  | inl e => throw e
  | inr rules => ret (fold_left ruleStep rules result)
  end.

Definition extractStyles (options : Options) : M (list Style) :=
  result <- foldM (elementStep (selectorOption options)) []
                  (styled (html options)) ;;
  if styleTags options then foldM styleBlockStep result
                                  (styleBlocks (html options))
  else ret result.

(** ** The serializer *)

Definition newline : string := String "010" "".

(** The lines pushed for one style. *)
Definition pushStyle (indent : nat) (line : list string) (style : Style)
    : list string :=
  (line ++ [selector style +:+ " {"])
    ++ map (fun prop => spaces indent +:+ prop +:+ ";") (props style)
    ++ ["}" +:+ newline].

Definition format (styles : list Style) (indent : nat) : string :=
  join newline (fold_left (pushStyle indent) styles []).

(** [format(extractStyles(options), options.indent)], as the plugin calls
    the two. *)
Definition extractCss (options : Options) : M string :=
  styles <- extractStyles options ;; ret (format styles (indent options)).

(** ** Definitions used to state the properties *)

(** [c] occurs in [s]. *)
Fixpoint occurs (c : ascii) (s : string) : bool :=
  match s with
  | "" => false
  | String c0 r => (Ascii.eqb c0 c || occurs c r)%bool
  end.

(** The text before the first [sep] and, when there is one, the text after
    it. *)
Fixpoint cut (sep : ascii) (s : string) : string * option string :=
  match s with
  | "" => ("", None)
  | String c r =>
      if Ascii.eqb c sep then ("", Some r)
      else (String c (cut sep r).1, (cut sep r).2)
  end.

(** A fragment of a style attribute that is kept: not empty once trimmed. *)
Definition kept (fragment : string) : bool := truthy (trim fragment).

(** What [formatProps] pushes for a kept fragment. *)
Definition normalize (fragment : string) : string :=
  join ": " (map trim (split ":" fragment)).

(** The normalizer as the specification words it: a fragment is split at
    its first colon only, and a fragment without colon is kept verbatim. *)
Definition normalize_spec (fragment : string) : string :=
  match cut ":" fragment with
  | (name, Some value) => trim name +:+ ": " +:+ trim value
  | (_, None) => fragment
  end.

Definition formatProps_spec (text : string) : list string :=
  sort (map normalize_spec (List.filter kept (split ";" text))).

(** [p] holds of every character of [s]. *)
Fixpoint allChars (p : ascii -> bool) (s : string) : bool :=
  match s with
  | "" => true
  | String c r => (p c && allChars p r)%bool
  end.

(** [[a-z0-9]] *)
Definition isAlnum (c : ascii) : bool := (isLower c || isDigit c)%bool.

(** [/^\.[a-z][a-z0-9]*$/.test(s)], the pattern the test suite expects of a
    hash selector. *)
Definition hashPattern (s : string) : bool :=
  match s with
  | String c0 (String c1 r) =>
      (Ascii.eqb c0 "." && isLower c1 && allChars isAlnum r)%bool
  | _ => false
  end.

(** The rendering in base 36 of a number of the open interval (0, 1): [0.]
    followed by at least one digit of [[0-9a-z]]. *)
Definition fractional (random : string) : bool :=
  match random with
  | String c0 (String c1 (String c2 r)) =>
      (Ascii.eqb c0 "0" && Ascii.eqb c1 "." && allChars isAlnum (String c2 r))%bool
  | _ => false
  end.

(** The rendering of a value of [Math.random()], a number of [0, 1): [0]
    for zero, a fractional rendering otherwise. *)
Definition rendering (random : string) : bool :=
  (String.eqb random "0" || fractional random)%bool.

(** No two entries of the sequence have equivalent selectors. *)
Definition distinct (result : list Style) : Prop :=
  ∀ i j style1 style2,
    i ≠ j → result !! i = Some style1 → result !! j = Some style2 →
    compareSelector (selector style1) (selector style2) = false.

(** The sequences the accumulator of [extractStyles] can hold: the empty
    sequence at the start, and the sequence left by the loop body after one
    more element or one more rule of a style block. *)
Inductive accumulated (selector : SelectorOption) : list Style -> Prop :=
| accumulated_start : accumulated selector []
| accumulated_element result el draws result' rest :
    accumulated selector result ->
    elementStep selector result el draws = Returned result' rest ->
    accumulated selector result'
| accumulated_rule result rule :
    accumulated selector result ->
    accumulated selector (ruleStep result rule).

(** The error of the first style block that the parser rejects. *)
Fixpoint firstError (blocks : list StyleBlock) : option CssSyntaxError :=
  match blocks with
  | [] => None
  | inl e :: _ => Some e
  | inr _ :: blocks' => firstError blocks'
  end.

(** The rules of the style blocks, in the order [walkRules] visits them. *)
Definition rulesOf (blocks : list StyleBlock) : list Rule :=
  flat_map (fun el => match el with inl _ => [] | inr rules => rules end)
           blocks.

(** What a run hands to its caller: a value, an error, or nothing yet. *)
Definition handed {A} (o : outcome A) : option (CssSyntaxError + A) :=
  match o with
  | Returned a _ => Some (inr a)
  | Thrown e => Some (inl e)
  | Pending => None
  end.

(** A computation that never calls [generateHash]: it returns the same
    value, or throws the same error, on every supply of draws. *)
Definition drawFree {A} (m : M A) : Prop :=
  ∃ o : CssSyntaxError + A,
    ∀ draws, m draws = match o with
                       | inr a => Returned a draws
                       | inl e => Thrown e
                       end.

(** The lines [format] pushes for one style. *)
Definition lines (indent : nat) (style : Style) : list string :=
  [selector style +:+ " {"]
    ++ map (fun prop => spaces indent +:+ prop +:+ ";") (props style)
    ++ ["}" +:+ newline].

(** The text of one rule as the specification words it: the selector line,
    one line per property, the closing brace, each ended by a newline. *)
Fixpoint propertyLines (indent : nat) (props : list string) : string :=
  match props with
  | [] => ""
  | prop :: props' =>
      spaces indent +:+ prop +:+ ";" +:+ newline +:+ propertyLines indent props'
  end.

Definition block (indent : nat) (style : Style) : string :=
  selector style +:+ " {" +:+ newline
  +:+ propertyLines indent (props style) +:+ "}" +:+ newline.

(** The merge step folded over a list of selectors with their property
    lists. *)
Definition upsertAll (pairs : list (string * list string))
    (result : list Style) : list Style :=
  fold_left (fun result pair => upsert result pair.1 pair.2) pairs result.

(** An attribute that is absent, empty or made of white space only. *)
Definition blank (a : option string) : bool :=
  match a with None => true | Some v => allChars isWhiteSpace v end.

(** A character that may stand in a class name for the purposes of the
    comparator: no white space, no combinator character, no dot. *)
Definition isNameChar (c : ascii) : bool :=
  (negb (isCombinator c) && negb (Ascii.eqb c "."))%bool.

(** A class name: at least one character, all of them name characters. *)
Definition isClassName (s : string) : bool :=
  (truthy s && allChars isNameChar s)%bool.

(** Two spaces in a row somewhere in [s]. *)
Fixpoint doubleSpace (s : string) : bool :=
  match s with
  | "" => false
  | String c r =>
      ((Ascii.eqb c " " && startsWithSpace r) || doubleSpace r)%bool
  end.

(** A character of a selector that the selector formatter leaves alone:
    no white space and no [>]. *)
Definition isPlainChar (c : ascii) : bool :=
  (negb (isWhiteSpace c) && negb (Ascii.eqb c ">"))%bool.

(** An entry as the loop over the elements builds it: a non-empty
    selector and a sorted property list. *)
Definition wellFormed (style : Style) : Prop :=
  truthy (selector style) = true ∧ Sorted String.le (props style).

(** [s] starts with the character [c]. *)
Definition headIs (c : ascii) (s : string) : bool :=
  match s with String c0 _ => Ascii.eqb c0 c | "" => false end.

(** The further names of a class attribute, each written after one or
    more spaces: a pair holds the number of spaces beyond the first and the
    name. *)
Fixpoint spaced (more : list (nat * string)) : string :=
  match more with
  | [] => ""
  | gap :: more' => spaces (S gap.1) +:+ gap.2 +:+ spaced more'
  end.

(** A class attribute as it is written: white space, a first name, the
    further names, white space. *)
Definition written (lead first : string) (more : list (nat * string))
    (trail : string) : string :=
  lead +:+ (first +:+ spaced more) +:+ trail.

(** The names of such an attribute. *)
Definition namesOf (first : string) (more : list (nat * string))
    : list string :=
  first :: map snd more.

(** Such an attribute is well written when the text around the names is
    white space and every name is a class name. *)
Definition wellWritten (lead first : string) (more : list (nat * string))
    (trail : string) : bool :=
  (allChars isWhiteSpace lead && allChars isWhiteSpace trail
   && forallb isClassName (namesOf first more))%bool.

(** Two names with a tab between them. *)
Definition tabbed (a b : string) : string := a +:+ String "009" b.

(** ** Sample documents *)

(** An element with a [style] attribute. *)
Definition div (cls ident : option string) (style : string) : Element :=
  mkElement cls ident (Some style).

(** An inline style, a well-formed style block and a malformed one. *)
Definition malformedPage : Options :=
  mkOptions
    (mkDocument [div (Some "test") None "color: red;"]
       [inr [mkRule ".valid" [decl "color" "red"]];
        inl (mkError "Unclosed block")])
    (One SelectorType.class) true 2.

(** Two elements of the same class, style tags off. *)
Definition twoOfAClass : Options :=
  mkOptions
    (mkDocument [div (Some "test") None "color: red;";
                 div (Some "test") None "font-size: 16px;"] [])
    (One SelectorType.class) false 2.

(** The element of the serializer's scenario. *)
Definition buttonPage : Options :=
  mkOptions
    (mkDocument [div (Some "button") None "color: red; margin: 10px;"] [])
    (One SelectorType.class) false 2.

(** Two elements of one class, the first repeating a declaration that the
    second has once; and the same two in the other order. *)
Definition repeatedFirst : Options :=
  mkOptions
    (mkDocument [div (Some "test") None "color: red; color: red";
                 div (Some "test") None "color: red"] [])
    (One SelectorType.class) false 2.

Definition repeatedLast : Options :=
  mkOptions
    (mkDocument [div (Some "test") None "color: red";
                 div (Some "test") None "color: red; color: red"] [])
    (One SelectorType.class) false 2.

(** A style block in front of an element with an inline style, style tags
    on. *)
Definition taggedPage : Options :=
  mkOptions
    (mkDocument [div (Some "test") None "color: red;"]
       [inr [mkRule ".existing" [decl "margin" "10px"]]])
    (One SelectorType.class) true 2.

(** An element without class and one with a class, strategy [class]. *)
Definition classlessPage : Options :=
  mkOptions
    (mkDocument [div None (Some "main") "color: blue;";
                 div (Some "note") None "margin: 0; color: red"] [])
    (One SelectorType.class) false 2.

(** One element that writes a declaration twice. *)
Definition repeatedAlone : Options :=
  mkOptions
    (mkDocument [div (Some "test") None "color: red; color: red"] [])
    (One SelectorType.class) false 2.

(** ** Sample runs, from the test suite *)

Example formatProps_malformed :
  formatProps (Some "color: red; ; margin;") = ["color: red"; "margin"].
Proof. vm_compute. reflexivity. Qed.

Example formatClass_compound :
  formatClass "  my-class   another-class " = ".my-class.another-class".
Proof. vm_compute. reflexivity. Qed.

Example formatSelector_spacing :
  formatSelector " .a>.b  ,  .c " = ".a > .b, .c".
Proof. vm_compute. reflexivity. Qed.

Example extract_merges_same_class :
  extractStyles twoOfAClass []
  = Returned [mkStyle ".test" ["color: red"; "font-size: 16px"]] [].
Proof. vm_compute. reflexivity. Qed.

Example extract_style_tags :
  extractStyles
    (mkOptions
       (mkDocument [div (Some "test") None "color: red;"]
          [inr [mkRule ".existing" [decl "margin" "10px"]]])
       (One SelectorType.class) true 2) []
  = Returned [mkStyle ".test" ["color: red"];
              mkStyle ".existing" ["margin: 10px"]] [].
Proof. vm_compute. reflexivity. Qed.

Example extract_hash :
  extractStyles
    (mkOptions (mkDocument [div None None "padding: 5px;"] [])
       (One SelectorType.hash) false 2) ["0.4fzyo82mvyr"; "0.k2j5x"]
  = Returned [mkStyle ".k2j5x" ["padding: 5px"]] [].
Proof. vm_compute. reflexivity. Qed.

Example format_two_rules :
  format [mkStyle ".first" ["color: red"];
          mkStyle ".second" ["margin: 10px"; "padding: 5px"]] 2
  = ".first {" +:+ newline +:+ "  color: red;" +:+ newline +:+ "}" +:+ newline
    +:+ newline +:+
    ".second {" +:+ newline +:+ "  margin: 10px;" +:+ newline +:+
    "  padding: 5px;" +:+ newline +:+ "}" +:+ newline.
Proof. vm_compute. reflexivity. Qed.

(** ** Properties of the string primitives *)

Section primitives.

Lemma append_cons c s t : String c s +:+ t = String c (s +:+ t).
Proof. reflexivity. Qed.

Lemma append_empty_l s : "" +:+ s = s.
Proof. reflexivity. Qed.

Lemma append_empty_r s : s +:+ "" = s.
Proof. induction s as [|c s IH]; [done|]. by rewrite append_cons, IH. Qed.

Lemma append_assoc s t u : (s +:+ t) +:+ u = s +:+ t +:+ u.
Proof.
  induction s as [|c s IH]; [done|]. by rewrite !append_cons, IH.
Qed.

(** [split] and [join] for a fixed separator. *)
Section split_join.

Variable sep : ascii.

Lemma split_not_nil s : split sep s ≠ [].
Proof.
  destruct s as [|c r]; simpl; [done|].
  destruct (Ascii.eqb c sep); [done|]. by destruct (split sep r).
Qed.

Lemma split_pieces s : Forall (fun t => occurs sep t = false) (split sep s).
Proof.
  induction s as [|c r IH]; simpl; [by repeat constructor|].
  destruct (Ascii.eqb c sep) eqn:E; [by constructor|].
  destruct (split sep r) as [|p ps]; [by repeat constructor; simpl; rewrite E|].
  inversion_clear IH. constructor; [|done]. simpl. by rewrite E.
Qed.

Lemma split_whole s : occurs sep s = false → split sep s = [s].
Proof.
  induction s as [|c r IH]; simpl; [done|].
  destruct (Ascii.eqb c sep); [done|]. simpl. intros H. by rewrite IH.
Qed.

Lemma split_app s r :
  occurs sep s = false →
  split sep (s +:+ String sep r) = s :: split sep r.
Proof.
  induction s as [|c s IH]; simpl.
  - intros _. rewrite ?append_empty_l. simpl. by rewrite Ascii.eqb_refl.
  - destruct (Ascii.eqb c sep) eqn:E; [done|]. simpl. intros H.
    by rewrite IH.
Qed.

Lemma join_cons (glue x y : string) l :
  join glue (x :: y :: l) = x +:+ glue +:+ join glue (y :: l).
Proof. reflexivity. Qed.

Lemma split_join l :
  l ≠ [] → Forall (fun t => occurs sep t = false) l →
  split sep (join (String sep "") l) = l.
Proof.
  induction l as [|x [|y l] IH]; [done| |].
  - intros _ H. inversion_clear H. by apply split_whole.
  - intros _ H. inversion_clear H.
    rewrite join_cons, append_cons, append_empty_l, split_app by done.
    f_equal. by apply IH.
Qed.

Lemma join_split s : join (String sep "") (split sep s) = s.
Proof.
  induction s as [|c r IH]; simpl; [done|].
  pose proof (split_not_nil r) as Hne.
  destruct (Ascii.eqb c sep) eqn:E.
  - apply Ascii.eqb_eq in E as ->.
    destruct (split sep r) as [|p ps]; [done|].
    by rewrite join_cons, append_empty_l, IH.
  - destruct (split sep r) as [|p ps]; [done|].
    destruct ps as [|q ps]; simpl in *; [by rewrite IH|].
    rewrite <- IH. by rewrite append_cons.
Qed.

End split_join.

(** The sort: its result is sorted, a permutation, and the only such list. *)

Lemma sort_Sorted l : Sorted String.le (sort l).
Proof. apply (Sorted_merge_sort String.le). Qed.

Lemma sort_perm l : sort l ≡ₚ l.
Proof. apply (merge_sort_Permutation String.le). Qed.

Lemma sort_unique l l' : Sorted String.le l' → l' ≡ₚ l → sort l = l'.
Proof.
  intros Hs Hp. apply (Sorted_unique String.le); [apply sort_Sorted|done|].
  by rewrite sort_perm.
Qed.

Lemma sort_sorted l : Sorted String.le l → sort l = l.
Proof. intros H. by apply sort_unique. Qed.

Lemma sort_idemp l : sort (sort l) = sort l.
Proof. apply sort_sorted, sort_Sorted. Qed.

Lemma sort_perm_eq l l' : l ≡ₚ l' → sort l = sort l'.
Proof.
  intros H. apply sort_unique; [apply sort_Sorted|]. by rewrite sort_perm.
Qed.

Lemma sort_not_nil l : l ≠ [] → sort l ≠ [].
Proof.
  intros H E. pose proof (sort_perm l) as Hp. rewrite E in Hp.
  by apply Permutation_nil_l in Hp.
Qed.

End primitives.

(** ** The selector comparator *)

Section comparator.

Lemma eqb_decide (s t : string) : String.eqb s t = bool_decide (s = t).
Proof.
  destruct (String.eqb_spec s t) as [->|Hne].
  - by rewrite bool_decide_eq_true_2.
  - by rewrite bool_decide_eq_false_2.
Qed.

(** The sorted tokens of a selector are still separator-free tokens, so
    joining them with the separator loses nothing. *)
Lemma split_join_sorted sep s :
  split sep (join (String sep "") (sort (split sep s))) = sort (split sep s).
Proof.
  apply split_join.
  - apply sort_not_nil, split_not_nil.
  - pose proof (split_pieces sep s) as H.
    by rewrite <- (sort_perm (split sep s)) in H.
Qed.

Lemma join_sorted_inj sep s t :
  join (String sep "") (sort (split sep s))
    = join (String sep "") (sort (split sep t))
  ↔ sort (split sep s) = sort (split sep t).
Proof.
  split; [|by intros ->].
  intros H. rewrite <- (split_join_sorted sep s), <- (split_join_sorted sep t).
  by rewrite H.
Qed.

Lemma hasCombinator_occurs s :
  hasCombinator s = true ↔ ∃ c, occurs c s = true ∧ isCombinator c = true.
Proof.
  induction s as [|c0 r IH]; simpl.
  - split; [done|]. by intros (c & ? & _).
  - rewrite orb_true_iff, IH. split.
    + intros [H|(c & H1 & H2)].
      * exists c0. by rewrite Ascii.eqb_refl.
      * exists c. by rewrite H1, orb_true_r.
    + intros (c & H1 & H2). apply orb_true_iff in H1 as [H1|H1].
      * apply Ascii.eqb_eq in H1 as ->. by left.
      * right. by exists c.
Qed.

Lemma isCombinator_chars c :
  isCombinator c = true
  ↔ isWhiteSpace c = true ∨ c ∈ [">"; "+"; "~"; "("; ")"; ","]%char.
Proof.
  unfold isCombinator. rewrite orb_true_iff. split.
  - intros [?|H]; [by left|]. right.
    destruct c as [[] [] [] [] [] [] [] []]; try discriminate H;
      repeat (first [apply list_elem_of_here | apply list_elem_of_further]).
  - intros [?|H]; [by left|]. right.
    repeat (apply elem_of_cons in H as [->|H]; [done|]).
    by apply elem_of_nil in H.
Qed.

Lemma hasCombinator_chars s :
  hasCombinator s = true
  ↔ ∃ c, occurs c s = true
         ∧ (isWhiteSpace c = true ∨ c ∈ [">"; "+"; "~"; "("; ")"; ","]%char).
Proof.
  rewrite hasCombinator_occurs. by setoid_rewrite isCombinator_chars.
Qed.

(** C4.  The comparator decides textual identity when either selector
    contains a combinator character (white space, [>], [+], [~], [(], [)]
    or a comma), and equality of the sorted lists of dot-separated tokens
    otherwise; it is symmetric; [.a.b] and [.b.a] are equivalent. *)
Theorem compareSelector_rule (A B : string) :
  compareSelector A B
    = (if (hasCombinator A || hasCombinator B)%bool then bool_decide (A = B)
       else bool_decide (sort (split "." A) = sort (split "." B)))
  ∧ compareSelector A B = compareSelector B A
  ∧ compareSelector ".a.b" ".b.a" = true
  ∧ (hasCombinator A = true
     ↔ ∃ c, occurs c A = true
            ∧ (isWhiteSpace c = true ∨ c ∈ [">"; "+"; "~"; "("; ")"; ","]%char)).
Proof.
  split; [|split; [|split]]; [| | |apply hasCombinator_chars].
  - unfold compareSelector.
    destruct (hasCombinator A || hasCombinator B)%bool; [apply eqb_decide|].
    rewrite eqb_decide. apply bool_decide_ext, join_sorted_inj.
  - unfold compareSelector. rewrite (orb_comm (hasCombinator A)).
    destruct (hasCombinator B || hasCombinator A)%bool; apply String.eqb_sym.
  - vm_compute. reflexivity.
Qed.

Lemma compareSelector_sym A B : compareSelector A B = compareSelector B A.
Proof.
  unfold compareSelector. rewrite (orb_comm (hasCombinator A)).
  destruct (hasCombinator B || hasCombinator A)%bool; apply String.eqb_sym.
Qed.

Lemma compareSelector_refl A : compareSelector A A = true.
Proof.
  unfold compareSelector.
  destruct (hasCombinator A || hasCombinator A)%bool; apply String.eqb_refl.
Qed.

End comparator.

(** ** The property normalizer *)

Section normalizer.

Lemma split_cut sep s :
  split sep s = match cut sep s with
                | (a, None) => [a]
                | (a, Some r) => a :: split sep r
                end.
Proof.
  induction s as [|c r IH]; simpl; [done|].
  destruct (Ascii.eqb c sep); [done|].
  rewrite IH. destruct (cut sep r) as [a [r'|]]; done.
Qed.

Lemma normalize_cut fragment :
  normalize fragment = match cut ":" fragment with
                       | (name, Some rest) => trim name +:+ ": " +:+ normalize rest
                       | (name, None) => trim name
                       end.
Proof.
  unfold normalize. rewrite (split_cut ":" fragment).
  destruct (cut ":" fragment) as [name [rest|]]; [|done].
  pose proof (split_not_nil ":" rest) as Hne.
  destruct (split ":" rest) as [|p ps]; [done|]. reflexivity.
Qed.

Lemma fold_pushProp fragments acc :
  fold_left pushProp fragments acc
    = acc ++ map normalize (List.filter kept fragments).
Proof.
  revert acc. induction fragments as [|f fs IH]; intros acc; simpl.
  - by rewrite app_nil_r.
  - rewrite IH. unfold pushProp, kept.
    destruct (truthy (trim f)); [|done]. by rewrite <- app_assoc.
Qed.

Lemma formatProps_text text :
  formatProps (Some text)
    = sort (map normalize (List.filter kept (split ";" text))).
Proof. unfold formatProps. by rewrite fold_pushProp. Qed.

(** The code and the normalizer as the specification words it part on a
    value that holds a colon and on a fragment without colon that has white
    space around it. *)
Lemma formatProps_spec_counterexample :
  formatProps (Some "background: url(http://x/y.png)")
    ≠ formatProps_spec "background: url(http://x/y.png)"
  ∧ formatProps (Some "color: red; ; margin;")
    ≠ formatProps_spec "color: red; ; margin;".
Proof. split; vm_compute; discriminate. Qed.

(** The run of the code, for reference: the [reduce] is a filter and a map
    under the sort, and [normalize] goes through the fragment colon by
    colon. *)
Lemma formatProps_normalizes (text : string) :
  formatProps (Some text)
    = sort (map normalize (List.filter kept (split ";" text)))
  ∧ ∀ fragment,
      normalize fragment
        = match cut ":" fragment with
          | (name, Some rest) => trim name +:+ ": " +:+ normalize rest
          | (name, None) => trim name
          end.
Proof. split; [apply formatProps_text | apply normalize_cut]. Qed.

(** With at most one colon the first colon is the only one: a fragment
    with one colon gives the trimmed name, [": "] and the trimmed value, and
    a fragment without colon gives its trimmed text. *)
Lemma normalize_one_colon name value :
  occurs ":" name = false → occurs ":" value = false →
  normalize (name +:+ ":" +:+ value) = trim name +:+ ": " +:+ trim value
  ∧ normalize name = trim name.
Proof.
  intros Hn Hv. unfold normalize.
  change (name +:+ ":" +:+ value) with (name +:+ String ":" value).
  by rewrite split_app, !split_whole.
Qed.

(** C2, on the code.  A value that holds a colon is not kept intact: the
    fragment is split at each of its colons, and the pieces come back
    joined by a colon and a space.  The declarations of a style block, the
    other way into a property list, keep such a value as it is. *)
Theorem formatProps_splits_value :
  formatProps (Some "background: url(http://x/y.png)")
    = ["background: url(http: //x/y.png)"]
  ∧ declarations [decl "background" "url(http://x/y.png)"]
    = ["background: url(http://x/y.png)"].
Proof. split; vm_compute; reflexivity. Qed.

End normalizer.

(** ** The merge of two property lists *)

Section merge.

Lemma indexOf_ge l x : (-1 ≤ indexOf l x)%Z.
Proof.
  induction l as [|y l IH]; simpl; [lia|].
  destruct (String.eqb y x); [lia|].
  destruct (Z.ltb_spec (indexOf l x) 0); lia.
Qed.

Lemma indexOf_absent l x : (indexOf l x <? 0)%Z = true ↔ x ∉ l.
Proof.
  induction l as [|y l IH]; simpl.
  - split; [intros _; apply not_elem_of_nil | done].
  - rewrite not_elem_of_cons. destruct (String.eqb_spec y x) as [->|Hne].
    + split; [done | by intros []].
    + pose proof (indexOf_ge l x).
      destruct (indexOf l x <? 0)%Z eqn:E.
      * split; [|done]. intros _. split; [done|]. by apply IH.
      * apply Z.ltb_ge in E. split; [intros H'; apply Z.ltb_lt in H'; lia|].
        intros [_ Hx]. by apply IH in Hx.
Qed.

Lemma indexOf_present l x : x ∈ l → (indexOf l x <? 0)%Z = false.
Proof.
  intros Hx. destruct (indexOf l x <? 0)%Z eqn:E; [|done].
  by apply indexOf_absent in E.
Qed.

Lemma pushNew_elem props prop x :
  x ∈ pushNew props prop ↔ x ∈ props ∨ x = prop.
Proof.
  unfold pushNew. destruct (indexOf props prop <? 0)%Z eqn:E.
  - by rewrite elem_of_app, list_elem_of_singleton.
  - split; [by left|]. intros [?| ->]; [done|].
    destruct (decide (prop ∈ props)) as [?|Hn]; [done|].
    apply indexOf_absent in Hn. congruence.
Qed.

Lemma fold_pushNew_elem props2 props1 x :
  x ∈ fold_left pushNew props2 props1 ↔ x ∈ props1 ∨ x ∈ props2.
Proof.
  revert props1. induction props2 as [|p ps IH]; intros props1; simpl.
  - rewrite elem_of_nil. tauto.
  - rewrite IH, pushNew_elem, elem_of_cons. tauto.
Qed.

Lemma pushNew_NoDup props prop : NoDup props → NoDup (pushNew props prop).
Proof.
  intros H. unfold pushNew. destruct (indexOf props prop <? 0)%Z eqn:E; [|done].
  apply indexOf_absent in E. apply NoDup_app. split; [done|].
  split; [|apply NoDup_singleton].
  intros x Hx ->%list_elem_of_singleton. done.
Qed.

Lemma fold_pushNew_NoDup props2 props1 :
  NoDup props1 → NoDup (fold_left pushNew props2 props1).
Proof.
  revert props1. induction props2 as [|p ps IH]; intros props1 H; simpl;
    [done|]. by apply IH, pushNew_NoDup.
Qed.

Lemma fold_pushNew_included props2 props1 :
  (∀ x, x ∈ props2 → x ∈ props1) → fold_left pushNew props2 props1 = props1.
Proof.
  induction props2 as [|p ps IH]; intros H; simpl; [done|].
  unfold pushNew at 2. rewrite indexOf_present by (apply H; left).
  apply IH. intros x Hx. apply H. by right.
Qed.

Lemma mergeProps_Sorted props1 props2 :
  Sorted String.le (mergeProps props1 props2).
Proof. apply sort_Sorted. Qed.

Lemma mergeProps_elem props1 props2 x :
  x ∈ mergeProps props1 props2 ↔ x ∈ props1 ∨ x ∈ props2.
Proof. unfold mergeProps. by rewrite sort_perm, fold_pushNew_elem. Qed.

Lemma mergeProps_NoDup props1 props2 :
  NoDup props1 → NoDup (mergeProps props1 props2).
Proof.
  intros H. unfold mergeProps. rewrite sort_perm. by apply fold_pushNew_NoDup.
Qed.

Lemma mergeProps_self props : Sorted String.le props → mergeProps props props = props.
Proof.
  intros H. unfold mergeProps. rewrite fold_pushNew_included by done.
  by apply sort_sorted.
Qed.

Lemma formatProps_Sorted style : Sorted String.le (formatProps style).
Proof. destruct style; [apply sort_Sorted | constructor]. Qed.

(** A declaration written twice in one attribute is listed twice. *)
Lemma formatProps_duplicates_counterexample :
  ¬ NoDup (formatProps (Some "color: red; color: red")).
Proof.
  assert (formatProps (Some "color: red; color: red")
          = ["color: red"; "color: red"]) as -> by (vm_compute; reflexivity).
  intros H. apply NoDup_cons in H as [H _]. apply H. left.
Qed.

(** The run of the code, for reference: the list is sorted, it rearranges
    the normalized kept fragments, and [mergeProps] of the list with itself
    gives it back. *)
Lemma formatProps_sorted_merge_self (text : string) :
  Sorted String.le (formatProps (Some text))
  ∧ formatProps (Some text)
      ≡ₚ map normalize (List.filter kept (split ";" text))
  ∧ mergeProps (formatProps (Some text)) (formatProps (Some text))
      = formatProps (Some text).
Proof.
  split; [apply formatProps_Sorted|]. split.
  - rewrite formatProps_text. apply sort_perm.
  - apply mergeProps_self, formatProps_Sorted.
Qed.

(** C3, on the code.  A style attribute that writes one declaration twice
    gives a normalized list with two identical entries; the rule of an
    element with that attribute lists the declaration twice, and
    [mergeProps] of that list with itself still does. *)
Theorem formatProps_repeats_declaration :
  formatProps (Some "color: red; color: red") = ["color: red"; "color: red"]
  ∧ extractStyles repeatedAlone []
    = Returned [mkStyle ".test" ["color: red"; "color: red"]] []
  ∧ mergeProps ["color: red"; "color: red"] ["color: red"; "color: red"]
    = ["color: red"; "color: red"].
Proof. repeat split; vm_compute; reflexivity. Qed.

End merge.

(** ** The selector generator *)

Section generator.

Lemma or_else_empty s : or_else s "" = s.
Proof. by destruct s. Qed.

(** Once a selector has been produced, every later strategy of the list
    answers with the class-derived selector, whatever its type. *)
Lemma selectorStep_named className id name type draws :
  truthy name = true →
  selectorStep className id name type draws
    = Returned (formatClass className) draws.
Proof.
  intros H. unfold selectorStep. rewrite H. simpl. by rewrite or_else_empty.
Qed.

Lemma generateSelector_class_id className id draws :
  generateSelector className id
    (Many [SelectorType.class; SelectorType.id]) draws
  = Returned (if truthy (formatClass className) then formatClass className
              else formatId id) draws.
Proof.
  unfold generateSelector. simpl. unfold bind, selectorStep at 1. simpl.
  rewrite or_else_empty. unfold ret at 1.
  destruct (truthy (formatClass className)) eqn:E.
  - by rewrite selectorStep_named.
  - unfold selectorStep. rewrite E. simpl. by rewrite or_else_empty.
Qed.

(** The instances of C1 for the list [[class, id]]: the class-derived
    selector when the class gives one, the id-derived selector otherwise,
    the empty selector when neither attribute is there. *)
Lemma generateSelector_class_then_id :
  generateSelector "button" "main"
    (Many [SelectorType.class; SelectorType.id]) [] = Returned ".button" []
  ∧ generateSelector "" "main"
      (Many [SelectorType.class; SelectorType.id]) [] = Returned "#main" []
  ∧ generateSelector "" ""
      (Many [SelectorType.class; SelectorType.id]) [] = Returned "" [].
Proof. repeat split; vm_compute; reflexivity. Qed.

(** C1, on the code.  With the list [[id, class]] and an element that has
    an id and no class, the [id] strategy produces [#main] and the [class]
    strategy that follows replaces it by the empty selector: the first
    non-empty selector does not win. *)
Theorem generateSelector_id_class_loses_id :
  generateSelector "" "main" (Many [SelectorType.id]) [] = Returned "#main" []
  ∧ generateSelector "" "main"
      (Many [SelectorType.id; SelectorType.class]) [] = Returned "" [].
Proof. split; vm_compute; reflexivity. Qed.

(** The hash strategy. *)

Lemma allChars_slice p n s : allChars p s = true → allChars p (slice n s) = true.
Proof.
  revert s. induction n as [|n IH]; intros [|c r]; simpl; try done.
  intros [_ H]%andb_true_iff. by apply IH.
Qed.

Lemma isAlnum_not_digit c : isAlnum c = true → isDigit c = false → isLower c = true.
Proof. unfold isAlnum. intros H1 H2. rewrite H2, orb_false_r in H1. done. Qed.

Lemma generateHash_cons random draws :
  generateHash (random :: draws)
    = if template (slice 2 random) then generateHash draws
      else Returned (slice 2 random) draws.
Proof. reflexivity. Qed.

(** On fractional renderings the loop of [generateHash] can only leave with
    a token of the expected shape. *)
Lemma generateHash_fractional draws hash rest :
  Forall (fun random => fractional random = true) draws →
  generateHash draws = Returned hash rest →
  hashPattern ("." +:+ hash) = true.
Proof.
  induction draws as [|random draws IH]; [done|].
  intros Hall. inversion_clear Hall as [|? ? Hf Hrest].
  rewrite generateHash_cons.
  destruct (template (slice 2 random)) eqn:Et; [by apply IH|].
  intros [= <- <-].
  destruct random as [|c0 [|c1 [|c2 r]]]; try done.
  cbn in Hf, Et |- *. apply andb_true_iff in Hf as [_ Hf].
  apply andb_true_iff in Hf as [Hc2 Hr].
  change (hashPattern (String "." (String c2 r)) = true). simpl.
  by rewrite (isAlnum_not_digit c2), Hr.
Qed.

(** The loop leaves at the first draw whose token does not start with a
    digit. *)
Lemma generateHash_returns draws1 random draws2 :
  Forall (fun r => template (slice 2 r) = true) draws1 →
  template (slice 2 random) = false →
  generateHash (draws1 ++ random :: draws2) = Returned (slice 2 random) draws2.
Proof.
  intros H Hr. induction H as [|r l Hd _ IH].
  - by rewrite app_nil_l, generateHash_cons, Hr.
  - by rewrite <- app_comm_cons, generateHash_cons, Hd.
Qed.

(** C7, on the code.  When the random source answers zero, rendered [0],
    the token is empty, the loop leaves at once, and the selector is a
    lone dot, which the pattern of a hash selector rejects. *)
Theorem generateSelector_hash_of_zero :
  rendering "0" = true
  ∧ generateHash ["0"] = Returned "" []
  ∧ generateSelector "" "" (One SelectorType.hash) ["0"] = Returned "." []
  ∧ hashPattern "." = false.
Proof. repeat split; vm_compute; reflexivity. Qed.

End generator.

(** ** The merge step of the extraction *)

Section upsert.

Lemma findIndex_cases {A} (p : A → bool) (l : list A) :
  (findIndex p l = (-1)%Z ∧ Forall (fun x => p x = false) l)
  ∨ (∃ i x, findIndex p l = Z.of_nat i ∧ l !! i = Some x ∧ p x = true
            ∧ ∀ j y, j < i → l !! j = Some y → p y = false).
Proof.
  induction l as [|y l IH]; simpl.
  - left. by split.
  - destruct (p y) eqn:Ey.
    + right. exists 0, y. repeat split; [done..|]. intros; lia.
    + destruct IH as [[-> Hall]|(i & x & -> & Hx & Hpx & Hbefore)].
      * left. split; [done|]. by constructor.
      * right. exists (S i), x.
        destruct (Z.ltb_spec (Z.of_nat i) 0); [lia|].
        repeat split; [lia|done..|].
        intros [|j] z Hj Hz; simpl in Hz; [by simplify_eq|].
        apply (Hbefore j); [lia|done].
Qed.

(** An entry that matches cannot belong to a sequence without match. *)
Ltac mismatch Hall Hin :=
  rewrite Forall_forall in Hall; specialize (Hall _ Hin); simpl in *;
  congruence.

Lemma upsert_new result value newProps :
  Forall (fun style => compareSelector (selector style) value = false) result →
  upsert result value newProps = result ++ [mkStyle value newProps].
Proof.
  intros Hall. unfold upsert.
  destruct (findIndex_cases
              (fun style => compareSelector (selector style) value) result)
    as [[-> _]|(i & x & _ & Hx & Hpx & _)]; [done|].
  apply list_elem_of_lookup_2 in Hx. mismatch Hall Hx.
Qed.

Lemma upsert_found result value newProps i style :
  result !! i = Some style →
  compareSelector (selector style) value = true →
  (∀ j other, j < i → result !! j = Some other →
              compareSelector (selector other) value = false) →
  upsert result value newProps
    = <[i := mkStyle (selector style) (mergeProps (props style) newProps)]> result.
Proof.
  intros Hi Hp Hbefore. unfold upsert.
  destruct (findIndex_cases
              (fun style => compareSelector (selector style) value) result)
    as [[_ Hall]|(k & x & -> & Hx & Hpx & Hk)].
  - apply list_elem_of_lookup_2 in Hi. mismatch Hall Hi.
  - assert (k = i) as ->.
    { destruct (Nat.lt_trichotomy k i) as [Hlt|[->|Hgt]]; [|done|].
      - specialize (Hbefore k x Hlt Hx). simpl in *. congruence.
      - specialize (Hk i style Hgt Hi). simpl in *. congruence. }
    destruct (Z.ltb_spec (-1) (Z.of_nat i)); [|lia].
    rewrite Nat2Z.id, Hi. by simplify_eq.
Qed.

(** The step either appends, when no entry is equivalent, or rewrites the
    properties of the first equivalent entry. *)
Lemma upsert_cases result value newProps :
  (Forall (fun style => compareSelector (selector style) value = false) result
   ∧ upsert result value newProps = result ++ [mkStyle value newProps])
  ∨ (∃ i style,
       result !! i = Some style
       ∧ compareSelector (selector style) value = true
       ∧ upsert result value newProps
           = <[i := mkStyle (selector style)
                            (mergeProps (props style) newProps)]> result).
Proof.
  destruct (findIndex_cases
              (fun style => compareSelector (selector style) value) result)
    as [[_ Hall]|(k & x & _ & Hx & Hpx & Hk)].
  - left. split; [done|]. by apply upsert_new.
  - right. exists k, x. repeat split; [done..|]. by apply upsert_found.
Qed.

Lemma upsert_distinct result value newProps :
  distinct result → distinct (upsert result value newProps).
Proof.
  intros Hd.
  destruct (upsert_cases result value newProps)
    as [[Hall ->]|(k & x & Hx & _ & ->)].
  - rewrite Forall_forall in Hall.
    intros i j s1 s2 Hij H1 H2.
    apply lookup_app_Some in H1 as [H1|[Hi H1]];
      apply lookup_app_Some in H2 as [H2|[Hj H2]].
    + by apply (Hd i j).
    + apply list_lookup_singleton_Some in H2 as [_ <-]. simpl.
      apply Hall. by eapply list_elem_of_lookup_2.
    + apply list_lookup_singleton_Some in H1 as [_ <-]. simpl.
      rewrite compareSelector_sym. apply Hall. by eapply list_elem_of_lookup_2.
    + apply list_lookup_singleton_Some in H1 as [? _].
      apply list_lookup_singleton_Some in H2 as [? _]. lia.
  - assert (∀ i s, <[k := mkStyle (selector x)
                                   (mergeProps (props x) newProps)]> result !! i
                   = Some s →
                   ∃ s', result !! i = Some s' ∧ selector s' = selector s)
      as Hsame.
    { intros i s Hs. apply list_lookup_insert_Some in Hs
        as [(-> & <- & _)|[_ Hs]]; eauto. }
    intros i j s1 s2 Hij H1 H2.
    apply Hsame in H1 as (s1' & H1 & <-). apply Hsame in H2 as (s2' & H2 & <-).
    by apply (Hd i j).
Qed.

Lemma distinct_nil : distinct [].
Proof. intros i j s1 s2 _ H. by rewrite lookup_nil in H. Qed.

End upsert.

(** ** The extraction loop *)

Section extraction.

Lemma bind_Returned {A B} (m : M A) (k : A → M B) draws b rest :
  (x <- m ;; k x) draws = Returned b rest ↔
  ∃ a mid, m draws = Returned a mid ∧ k a mid = Returned b rest.
Proof.
  unfold bind. destruct (m draws) as [a mid| |]; split;
    try done; try (by intros (? & ? & ? & _)); eauto.
  by intros (a' & mid' & [= <- <-] & H).
Qed.

Lemma elementStep_distinct selector result el draws result' rest :
  distinct result →
  elementStep selector result el draws = Returned result' rest →
  distinct result'.
Proof.
  intros Hd H. apply bind_Returned in H as (value & mid & _ & H).
  injection H as <- _.
  destruct (truthy value); [by apply upsert_distinct | done].
Qed.

Lemma accumulated_distinct selector result :
  accumulated selector result → distinct result.
Proof.
  induction 1 as [|result el draws result' rest _ IH Hstep|result rule _ IH].
  - apply distinct_nil.
  - by eapply elementStep_distinct.
  - by apply upsert_distinct.
Qed.

Lemma foldM_elementStep_accumulated selector els result draws result' rest :
  accumulated selector result →
  foldM (elementStep selector) result els draws = Returned result' rest →
  accumulated selector result'.
Proof.
  revert result draws. induction els as [|el els IH]; intros result draws Hacc.
  - by intros [= <- _].
  - simpl. intros (mid & draws' & Hstep & Hrest)%bind_Returned.
    eapply IH; [|done]. by eapply accumulated_element.
Qed.

Lemma fold_ruleStep_accumulated selector rules result :
  accumulated selector result →
  accumulated selector (fold_left ruleStep rules result).
Proof.
  revert result. induction rules as [|rule rules IH]; intros result Hacc;
    [done|]. simpl. by apply IH, accumulated_rule.
Qed.

Lemma foldM_styleBlockStep_accumulated selector blocks result draws result' rest :
  accumulated selector result →
  foldM styleBlockStep result blocks draws = Returned result' rest →
  accumulated selector result'.
Proof.
  revert result draws.
  induction blocks as [|el blocks IH]; intros result draws Hacc.
  - by intros [= <- _].
  - simpl. intros (mid & draws' & Hstep & Hrest)%bind_Returned.
    eapply IH; [|done]. destruct el as [e|rules]; [done|].
    injection Hstep as <- _. by apply fold_ruleStep_accumulated.
Qed.

Lemma extractStyles_accumulated options draws result rest :
  extractStyles options draws = Returned result rest →
  accumulated (selectorOption options) result.
Proof.
  unfold extractStyles. intros (inline & mid & Hinline & H)%bind_Returned.
  apply foldM_elementStep_accumulated in Hinline; [|constructor].
  destruct (styleTags options).
  - by eapply foldM_styleBlockStep_accumulated.
  - by injection H as <- _.
Qed.

(** C5.  Every sequence the accumulator holds during an extraction, and so
    the sequence an extraction returns, has no two entries with equivalent
    selectors.  The merge step appends a new entry only when no entry is
    equivalent to the new selector; otherwise it rewrites the properties of
    the first equivalent entry in place and the sequence keeps its length
    and its selectors. *)
Theorem accumulated_never_equivalent (options : Options) :
  (∀ result, accumulated (selectorOption options) result → distinct result)
  ∧ (∀ draws result rest,
       extractStyles options draws = Returned result rest →
       accumulated (selectorOption options) result ∧ distinct result)
  ∧ (∀ result value newProps,
       (Forall (fun style => compareSelector (selector style) value = false)
               result
        ∧ upsert result value newProps = result ++ [mkStyle value newProps])
       ∨ (∃ i style,
            result !! i = Some style
            ∧ compareSelector (selector style) value = true
            ∧ upsert result value newProps
                = <[i := mkStyle (selector style)
                                 (mergeProps (props style) newProps)]> result
            ∧ length (upsert result value newProps) = length result
            ∧ map selector (upsert result value newProps)
                = map selector result)).
Proof.
  split; [apply accumulated_distinct|]. split.
  - intros draws result rest H. apply extractStyles_accumulated in H.
    split; [done|]. by eapply accumulated_distinct.
  - intros result value newProps.
    destruct (upsert_cases result value newProps)
      as [?|(i & style & Hi & Hp & Hu)]; [by left|].
    right. exists i, style. repeat split; [done..| |].
    + rewrite Hu. apply length_insert.
    + rewrite Hu. rewrite list_fmap_insert. simpl.
      apply list_insert_id. by rewrite list_lookup_fmap, Hi.
Qed.

(** The loop over the style blocks stops at the first block the parser
    rejects; without such a block it folds the rules of all blocks. *)
Lemma foldM_styleBlockStep blocks result draws :
  foldM styleBlockStep result blocks draws
    = match firstError blocks with
      | Some e => Thrown e
      | None => Returned (fold_left ruleStep (rulesOf blocks) result) draws
      end.
Proof.
  revert result. induction blocks as [|[e|rules] blocks IH]; intros result;
    [done..|].
  simpl. unfold bind, ret. rewrite IH. unfold rulesOf. simpl.
  by rewrite fold_left_app.
Qed.

Lemma firstError_elem blocks e :
  inl e ∈ blocks → ∃ e', firstError blocks = Some e'.
Proof.
  induction blocks as [|[e0|rules] blocks IH]; simpl.
  - by intros ?%elem_of_nil.
  - eauto.
  - intros [?|?]%elem_of_cons; [done|]. by apply IH.
Qed.

(** C8.  With style-tag extraction enabled and a style block that the
    parser rejects, an extraction returns no sequence of styles and no CSS
    text on any supply of draws; once the loop over the inline styles has
    returned, the extraction throws the error of the first rejected block,
    whatever was accumulated before. *)
Theorem extractStyles_parse_failure (options : Options) (e : CssSyntaxError)
    (draws : list string) :
  styleTags options = true →
  inl e ∈ styleBlocks (html options) →
  (∀ styles rest, extractStyles options draws ≠ Returned styles rest)
  ∧ (∀ css rest, extractCss options draws ≠ Returned css rest)
  ∧ (∀ inline rest,
       foldM (elementStep (selectorOption options)) []
             (styled (html options)) draws = Returned inline rest →
       ∃ e', firstError (styleBlocks (html options)) = Some e'
             ∧ extractStyles options draws = Thrown e'
             ∧ extractCss options draws = Thrown e').
Proof.
  intros Htags He. apply firstError_elem in He as [e' He'].
  assert (∀ styles rest, extractStyles options draws ≠ Returned styles rest)
    as Hnone.
  { intros styles rest (inline & mid & _ & H)%bind_Returned.
    rewrite Htags, foldM_styleBlockStep, He' in H. done. }
  split; [done|]. split.
  - intros css rest (styles & mid & H & _)%bind_Returned. by eapply Hnone.
  - intros inline rest Hinline. exists e'. split; [done|].
    assert (extractStyles options draws = Thrown e') as Hthrown.
    { unfold extractStyles, bind. rewrite Hinline, Htags.
      by rewrite foldM_styleBlockStep, He'. }
    split; [done|]. unfold extractCss, bind. by rewrite Hthrown.
Qed.

Lemma extractStyles_parse_failure_witness :
  styleTags malformedPage = true
  ∧ inl (mkError "Unclosed block") ∈ styleBlocks (html malformedPage)
  ∧ extractStyles malformedPage [] = Thrown (mkError "Unclosed block").
Proof.
  split; [reflexivity|]. split; [apply list_elem_of_further, list_elem_of_here|].
  destruct (extractStyles_parse_failure malformedPage
              (mkError "Unclosed block") [] eq_refl
              (list_elem_of_further _ _ _ (list_elem_of_here _ _)))
    as (_ & _ & H).
  destruct (H [mkStyle ".test" ["color: red"]] [] eq_refl)
    as (e' & He' & Hthrown & _).
  injection He' as <-. exact Hthrown.
Defined.

Lemma accumulated_never_equivalent_witness :
  extractStyles twoOfAClass []
    = Returned [mkStyle ".test" ["color: red"; "font-size: 16px"]] []
  ∧ distinct [mkStyle ".test" ["color: red"; "font-size: 16px"]].
Proof.
  split; [reflexivity|].
  apply (proj1 (proj2 (accumulated_never_equivalent twoOfAClass)) [] _ []).
  reflexivity.
Defined.

(** Computations that leave the random source alone. *)

Lemma drawFree_ret {A} (a : A) : drawFree (ret a).
Proof. by exists (inr a). Qed.

Lemma drawFree_throw {A} e : drawFree (@throw A e).
Proof. by exists (inl e). Qed.

Lemma drawFree_bind {A B} (m : M A) (k : A → M B) :
  drawFree m → (∀ a, drawFree (k a)) → drawFree (x <- m ;; k x).
Proof.
  intros [[e|a] Hm] Hk.
  - exists (inl e). intros draws. unfold bind. by rewrite Hm.
  - destruct (Hk a) as [o Ho]. exists o. intros draws. unfold bind.
    by rewrite Hm, Ho.
Qed.

Lemma drawFree_foldM {A B} (f : A → B → M A) (l : list B) :
  (∀ a b, b ∈ l → drawFree (f a b)) → ∀ a, drawFree (foldM f a l).
Proof.
  induction l as [|b l IH]; intros Hf a; simpl; [apply drawFree_ret|].
  apply drawFree_bind; [apply Hf; left|].
  intros a'. apply IH. intros a'' b' Hb'. apply Hf. by right.
Qed.

Lemma selectorStep_drawFree className id name type :
  type ≠ SelectorType.hash → drawFree (selectorStep className id name type).
Proof.
  intros Hne. unfold selectorStep.
  destruct type; [| |done]; simpl.
  - rewrite orb_true_r. apply drawFree_ret.
  - destruct (truthy name); apply drawFree_ret.
Qed.

Lemma generateSelector_drawFree className id selector :
  SelectorType.hash ∉ strategies selector →
  drawFree (generateSelector className id selector).
Proof.
  intros Hno. apply drawFree_foldM. intros name type Htype.
  apply selectorStep_drawFree. by intros ->.
Qed.

Create HintDb drawfree.
Hint Resolve drawFree_ret drawFree_throw drawFree_bind drawFree_foldM
  generateSelector_drawFree : drawfree.

Lemma elementStep_drawFree selector result el :
  SelectorType.hash ∉ strategies selector →
  drawFree (elementStep selector result el).
Proof. intros Hno. unfold elementStep. auto with drawfree. Qed.

Lemma styleBlockStep_drawFree result el : drawFree (styleBlockStep result el).
Proof. destruct el; simpl; auto with drawfree. Qed.

Hint Resolve elementStep_drawFree styleBlockStep_drawFree : drawfree.

Lemma extractStyles_drawFree options :
  SelectorType.hash ∉ strategies (selectorOption options) →
  drawFree (extractStyles options).
Proof.
  intros Hno. unfold extractStyles. apply drawFree_bind; [auto with drawfree|].
  intros result. destruct (styleTags options); auto with drawfree.
Qed.

(** C10.  When the configured strategy, single or list, does not include
    [hash], two runs of the extraction on the same configuration hand over
    the same outcome, whatever the random source holds: the same sequence
    of styles, or the same error; and the run always ends. *)
Theorem extractStyles_deterministic (options : Options)
    (draws1 draws2 : list string) :
  SelectorType.hash ∉ strategies (selectorOption options) →
  handed (extractStyles options draws1) = handed (extractStyles options draws2)
  ∧ extractStyles options draws1 ≠ Pending.
Proof.
  intros Hno. destruct (extractStyles_drawFree options Hno) as [[e|styles] H].
  - rewrite !H. by split.
  - rewrite !H. by split.
Qed.

Lemma extractStyles_deterministic_witness :
  (SelectorType.hash ∉ strategies (selectorOption twoOfAClass))
  ∧ handed (extractStyles twoOfAClass [])
    = handed (extractStyles twoOfAClass ["0.4fzyo82mvyr"]).
Proof.
  assert (SelectorType.hash ∉ strategies (selectorOption twoOfAClass)) as Hno.
  { simpl. intros H. apply list_elem_of_singleton in H. discriminate H. }
  split; [exact Hno|].
  exact (proj1 (extractStyles_deterministic twoOfAClass []
                  ["0.4fzyo82mvyr"] Hno)).
Defined.

End extraction.

(** ** The serializer *)

Section serializer.

Lemma join_app sep l1 l2 :
  l1 ≠ [] → l2 ≠ [] →
  join sep (l1 ++ l2) = join sep l1 +:+ sep +:+ join sep l2.
Proof.
  intros H1 H2. induction l1 as [|x [|y l1] IH]; [done| |].
  - destruct l2 as [|z l2]; [done|]. reflexivity.
  - rewrite <- !app_comm_cons, join_cons.
    rewrite app_comm_cons, IH by done.
    by rewrite join_cons, !append_assoc.
Qed.

Lemma join_propertyLines indent props closing :
  join newline (map (fun prop => spaces indent +:+ prop +:+ ";") props
                ++ [closing])
    = propertyLines indent props +:+ closing.
Proof.
  induction props as [|prop props IH]; [done|].
  cbn [map propertyLines]. rewrite <- app_comm_cons.
  destruct (map (fun prop => spaces indent +:+ prop +:+ ";") props ++ [closing])
    as [|z l] eqn:E; [by destruct props|].
  rewrite join_cons, IH. by rewrite !append_assoc.
Qed.

Lemma join_lines indent style :
  join newline (lines indent style) = block indent style.
Proof.
  unfold lines, block.
  rewrite join_app; [|done|by destruct (props style)].
  rewrite join_propertyLines.
  change (join newline [selector style +:+ " {"]) with (selector style +:+ " {").
  by rewrite !append_assoc.
Qed.

Lemma lines_not_nil indent style : lines indent style ≠ [].
Proof. done. Qed.

Lemma fold_pushStyle indent styles line :
  fold_left (pushStyle indent) styles line
    = line ++ flat_map (lines indent) styles.
Proof.
  revert line. induction styles as [|style styles IH]; intros line; simpl.
  - by rewrite app_nil_r.
  - rewrite IH. unfold pushStyle, lines. by rewrite <- !app_assoc.
Qed.

Lemma join_flat_lines indent styles :
  join newline (flat_map (lines indent) styles)
    = join newline (map (block indent) styles).
Proof.
  induction styles as [|style [|style' styles] IH]; [done| |].
  - change (flat_map (lines indent) [style]) with (lines indent style ++ []).
    by rewrite app_nil_r, join_lines.
  - change (flat_map (lines indent) (style :: style' :: styles))
      with (lines indent style ++ flat_map (lines indent) (style' :: styles)).
    rewrite join_app, IH, join_lines; [done|done|].
    simpl. by destruct (lines indent style') eqn:E.
Qed.

(** C9.  The serializer writes the rules in order, each as its selector
    line, one line per property indented by the given width and closed by a
    semicolon, and the closing brace, every line ended by a newline, with
    one more newline between two rules; a rule without property is written
    as its selector line and its closing brace.  The scenario of the
    specification serializes to the expected text. *)
Theorem format_blocks (styles : list Style) (indent : nat) :
  format styles indent = join newline (map (block indent) styles)
  ∧ (∀ sel, block indent (mkStyle sel [])
            = sel +:+ " {" +:+ newline +:+ "}" +:+ newline)
  ∧ extractCss buttonPage []
    = Returned (".button {" +:+ newline +:+ "  color: red;" +:+ newline
                +:+ "  margin: 10px;" +:+ newline +:+ "}" +:+ newline) [].
Proof.
  split; [|split].
  - unfold format. by rewrite fold_pushStyle, app_nil_l, join_flat_lines.
  - done.
  - vm_compute. reflexivity.
Qed.

End serializer.

(** ** The order of the merges *)

Section order.

Lemma upsertAll_single pairs sel ps :
  (∀ pair, pair ∈ pairs → compareSelector sel pair.1 = true) →
  upsertAll pairs [mkStyle sel ps]
    = [mkStyle sel (fold_left mergeProps (map snd pairs) ps)].
Proof.
  revert ps. induction pairs as [|[value new] pairs IH]; intros ps Heq; [done|].
  unfold upsertAll. simpl.
  rewrite (upsert_found [mkStyle sel ps] value new 0 (mkStyle sel ps));
    [|done|apply (Heq (value, new)); left|intros; lia].
  apply IH. intros pair Hpair. apply Heq. by right.
Qed.

Lemma fold_mergeProps_elem lists ps x :
  x ∈ fold_left mergeProps lists ps ↔ x ∈ ps ∨ ∃ l, l ∈ lists ∧ x ∈ l.
Proof.
  revert ps. induction lists as [|l lists IH]; intros ps; simpl.
  - split; [by left|]. intros [?|(l & Hl & _)]; [done|].
    by apply elem_of_nil in Hl.
  - rewrite IH, mergeProps_elem. split.
    + intros [[?|?]|(l' & Hl' & ?)]; [by left| |].
      * right. exists l. split; [left|done].
      * right. exists l'. split; [by right|done].
    + intros [?|(l' & Hl' & Hx)]; [by left; left|].
      apply elem_of_cons in Hl' as [->|Hl']; [by left; right|].
      right. by exists l'.
Qed.

Lemma fold_mergeProps_NoDup lists ps :
  NoDup ps → NoDup (fold_left mergeProps lists ps).
Proof.
  revert ps. induction lists as [|l lists IH]; intros ps H; simpl; [done|].
  by apply IH, mergeProps_NoDup.
Qed.

Lemma fold_mergeProps_Sorted lists ps :
  Sorted String.le ps → Sorted String.le (fold_left mergeProps lists ps).
Proof.
  revert ps. induction lists as [|l lists IH]; intros ps H; simpl; [done|].
  apply IH, mergeProps_Sorted.
Qed.

Lemma upsertAll_props pairs :
  (∀ a b, a ∈ pairs → b ∈ pairs → compareSelector a.1 b.1 = true) →
  (∀ a, a ∈ pairs → NoDup a.2 ∧ Sorted String.le a.2) →
  pairs ≠ [] →
  ∃ sel ps, upsertAll pairs [] = [mkStyle sel ps]
            ∧ NoDup ps ∧ Sorted String.le ps
            ∧ ∀ x, x ∈ ps ↔ ∃ a, a ∈ pairs ∧ x ∈ a.2.
Proof.
  intros Heq Hprops Hne. destruct pairs as [|[value new] pairs]; [done|].
  exists value, (fold_left mergeProps (map snd pairs) new).
  destruct (Hprops (value, new)) as [Hnd Hs]; [left|]. simpl in Hnd, Hs.
  split; [|split; [|split]].
  - unfold upsertAll. simpl. rewrite upsert_new by constructor.
    apply upsertAll_single. intros pair Hpair.
    apply (Heq (value, new) pair); [left | by right].
  - by apply fold_mergeProps_NoDup.
  - by apply fold_mergeProps_Sorted.
  - intros x. rewrite fold_mergeProps_elem. split.
    + intros [Hx|(l & Hl & Hx)].
      * exists (value, new). split; [left|done].
      * apply list_elem_of_fmap in Hl as (a & -> & Ha).
        exists a. split; [by right|done].
    + intros (a & Ha & Hx). apply elem_of_cons in Ha as [->|Ha]; [by left|].
      right. exists a.2. split; [|done]. apply list_elem_of_fmap. by exists a.
Qed.

(** Folding the merge step over selectors that are pairwise equivalent,
    each with a sorted property list free of repetitions, leaves one entry
    whose property list does not depend on the order of the fold. *)
Lemma upsertAll_order_independent pairs pairs' :
  pairs ≡ₚ pairs' →
  (∀ a b, a ∈ pairs → b ∈ pairs → compareSelector a.1 b.1 = true) →
  (∀ a, a ∈ pairs → NoDup a.2 ∧ Sorted String.le a.2) →
  map props (upsertAll pairs []) = map props (upsertAll pairs' []).
Proof.
  intros Hperm Heq Hprops.
  destruct pairs as [|pair pairs].
  { apply Permutation_nil_l in Hperm as <-. done. }
  destruct (upsertAll_props (pair :: pairs) Heq Hprops)
    as (sel & ps & -> & Hnd & Hs & Hin); [done|].
  destruct (upsertAll_props pairs') as (sel' & ps' & -> & Hnd' & Hs' & Hin').
  { intros a b Ha Hb. rewrite <- Hperm in Ha, Hb. by apply Heq. }
  { intros a Ha. rewrite <- Hperm in Ha. by apply Hprops. }
  { intros ->. by apply Permutation_nil_r in Hperm. }
  simpl. f_equal. apply (Sorted_unique String.le); [done..|].
  apply NoDup_Permutation; [done..|].
  intros x. rewrite Hin, Hin'. by setoid_rewrite Hperm.
Qed.

(** C6, on the code.  Two elements with the same selector, one writing a
    declaration twice and the other once: visited in one order the rule
    lists the declaration twice, in the other order once. *)
Theorem extractStyles_order_dependent :
  extractStyles repeatedFirst []
    = Returned [mkStyle ".test" ["color: red"; "color: red"]] []
  ∧ extractStyles repeatedLast []
    = Returned [mkStyle ".test" ["color: red"]] []
  ∧ mergeProps ["color: red"; "color: red"] ["color: red"]
    = ["color: red"; "color: red"].
Proof. repeat split; vm_compute; reflexivity. Qed.

End order.

(** * Further properties of the code *)

(** ** Trimming *)

Section trimming.

Lemma truthy_empty s : truthy s = false ↔ s = "".
Proof. by destruct s. Qed.

Lemma trimEnd_cons c r :
  trimEnd (String c r)
    = if (isWhiteSpace c && negb (truthy (trimEnd r)))%bool then ""
      else String c (trimEnd r).
Proof. reflexivity. Qed.

(** A string [trimEnd] leaves alone: its tail is such a string and it does
    not consist of one white space. *)
Lemma trimEnd_fixed_cons c r :
  trimEnd (String c r) = String c r
  ↔ trimEnd r = r ∧ (isWhiteSpace c = false ∨ r ≠ "").
Proof.
  rewrite trimEnd_cons. split.
  - destruct (isWhiteSpace c && negb (truthy (trimEnd r)))%bool eqn:E; [done|].
    intros [= Hr]. split; [done|]. rewrite Hr in E.
    apply andb_false_iff in E as [?|E]; [by left|]. right.
    apply negb_false_iff in E. by destruct r.
  - intros [Hr Hc]. rewrite Hr.
    destruct (isWhiteSpace c && negb (truthy r))%bool eqn:E; [|done].
    apply andb_true_iff in E as [Hw E]. apply negb_true_iff, truthy_empty in E.
    destruct Hc; congruence.
Qed.

Lemma trimEnd_idemp s : trimEnd (trimEnd s) = trimEnd s.
Proof.
  induction s as [|c r IH]; [done|]. rewrite trimEnd_cons.
  destruct (isWhiteSpace c && negb (truthy (trimEnd r)))%bool eqn:E; [done|].
  apply trimEnd_fixed_cons. split; [done|].
  apply andb_false_iff in E as [?|E]; [by left|]. right.
  apply negb_false_iff in E. by destruct (trimEnd r).
Qed.

Lemma trimStart_fixed_end s : trimEnd s = s → trimEnd (trimStart s) = trimStart s.
Proof.
  induction s as [|c r IH]; [done|]. intros H. simpl trimStart.
  destruct (isWhiteSpace c); [|done].
  apply IH. by apply trimEnd_fixed_cons in H as [? _].
Qed.

Lemma trimStart_head s c r : trimStart s = String c r → isWhiteSpace c = false.
Proof.
  induction s as [|c0 r0 IH]; [done|]. simpl.
  destruct (isWhiteSpace c0) eqn:E; [done|]. by intros [= <- _].
Qed.

Lemma trimStart_fixed s : trimStart (trimStart s) = trimStart s.
Proof.
  destruct (trimStart s) as [|c r] eqn:E; [done|].
  apply trimStart_head in E. simpl. by rewrite E.
Qed.

Lemma trim_trimEnd s : trimEnd (trim s) = trim s.
Proof. apply trimStart_fixed_end, trimEnd_idemp. Qed.

Lemma trim_idemp s : trim (trim s) = trim s.
Proof. unfold trim at 1. rewrite trim_trimEnd. apply trimStart_fixed. Qed.

Lemma trimStart_empty s : trimStart s = "" ↔ allChars isWhiteSpace s = true.
Proof.
  induction s as [|c r IH]; [done|]. simpl.
  destruct (isWhiteSpace c); [done|]. by split.
Qed.

Lemma trimEnd_empty s : trimEnd s = "" ↔ allChars isWhiteSpace s = true.
Proof.
  induction s as [|c r IH]; [done|]. rewrite trimEnd_cons. simpl allChars.
  rewrite andb_true_iff, <- IH.
  destruct (isWhiteSpace c); simpl.
  - destruct (trimEnd r); simpl; split; try done. by intros [_ ?].
  - split; [done|]. by intros [? _].
Qed.

Lemma trimEnd_whitespace s : allChars isWhiteSpace (trimEnd s) = true → trimEnd s = "".
Proof. intros H. apply trimEnd_empty in H. by rewrite trimEnd_idemp in H. Qed.

Lemma trim_empty s : trim s = "" ↔ allChars isWhiteSpace s = true.
Proof.
  unfold trim. rewrite trimStart_empty. split.
  - intros H. by apply trimEnd_empty, trimEnd_whitespace.
  - intros H. apply trimEnd_empty in H. by rewrite H.
Qed.

Lemma trim_head s c r : trim s = String c r → isWhiteSpace c = false.
Proof. apply trimStart_head. Qed.

(** A string whose ends are not white space is its own trimming. *)
Lemma trim_fixed c r :
  isWhiteSpace c = false → trimEnd (String c r) = String c r →
  trim (String c r) = String c r.
Proof. intros Hc He. unfold trim. rewrite He. simpl. by rewrite Hc. Qed.

End trimming.

(** ** The class and id formatters *)

Section formatters.

Lemma occurs_append c s t : occurs c (s +:+ t) = (occurs c s || occurs c t)%bool.
Proof.
  induction s as [|c0 s IH]; [done|].
  rewrite append_cons. simpl. by rewrite IH, orb_assoc.
Qed.

Lemma collapseSpaces_cons c r :
  collapseSpaces (String c r)
    = if (Ascii.eqb c " " && startsWithSpace r)%bool then collapseSpaces r
      else String c (collapseSpaces r).
Proof. reflexivity. Qed.

Lemma replaceChar_cons c by_ c0 r :
  replaceChar c by_ (String c0 r)
    = if Ascii.eqb c0 c then by_ +:+ replaceChar c by_ r
      else String c0 (replaceChar c by_ r).
Proof. reflexivity. Qed.

Lemma collapseSpaces_absent s : occurs " " s = false → collapseSpaces s = s.
Proof.
  induction s as [|c r IH]; [done|]. simpl occurs.
  intros [Hc Hr]%orb_false_iff. rewrite collapseSpaces_cons, Hc. simpl.
  by rewrite IH.
Qed.

Lemma replaceChar_absent c by_ s : occurs c s = false → replaceChar c by_ s = s.
Proof.
  induction s as [|c0 r IH]; [done|]. simpl occurs.
  intros [Hc Hr]%orb_false_iff. by rewrite replaceChar_cons, Hc, IH.
Qed.

Lemma replaceChar_gone c by_ s :
  occurs c by_ = false → occurs c (replaceChar c by_ s) = false.
Proof.
  intros Hby. induction s as [|c0 r IH]; [done|]. rewrite replaceChar_cons.
  destruct (Ascii.eqb c0 c) eqn:E.
  - by rewrite occurs_append, Hby, IH.
  - simpl. by rewrite E, IH.
Qed.

Lemma collapseSpaces_empty s : collapseSpaces s = "" ↔ s = "".
Proof.
  split; [|by intros ->]. induction s as [|c r IH]; [done|].
  rewrite collapseSpaces_cons.
  destruct (Ascii.eqb c " " && startsWithSpace r)%bool eqn:E; [|done].
  intros H%IH. subst r. apply andb_true_iff in E as [_ E]. done.
Qed.

Lemma dots_empty s : replaceChar " " "." s = "" ↔ s = "".
Proof.
  split; [|by intros ->]. destruct s as [|c r]; [done|].
  rewrite replaceChar_cons. by destruct (Ascii.eqb c " ").
Qed.

Lemma collapseSpaces_fixed_end s :
  trimEnd s = s → trimEnd (collapseSpaces s) = collapseSpaces s.
Proof.
  induction s as [|c r IH]; [done|].
  intros [Hr Hc]%trimEnd_fixed_cons. rewrite collapseSpaces_cons.
  destruct (Ascii.eqb c " " && startsWithSpace r)%bool; [by apply IH|].
  apply trimEnd_fixed_cons. split; [by apply IH|].
  destruct Hc as [?|Hne]; [by left|]. right. by rewrite collapseSpaces_empty.
Qed.

Lemma dots_fixed_end s :
  trimEnd s = s → trimEnd (replaceChar " " "." s) = replaceChar " " "." s.
Proof.
  induction s as [|c r IH]; [done|].
  intros [Hr Hc]%trimEnd_fixed_cons. rewrite replaceChar_cons.
  destruct (Ascii.eqb c " ") eqn:E.
  - change ("." +:+ replaceChar " " "." r)
      with (String "." (replaceChar " " "." r)).
    apply trimEnd_fixed_cons. split; [by apply IH|]. by left.
  - apply trimEnd_fixed_cons. split; [by apply IH|].
    destruct Hc as [?|Hne]; [by left|]. right. by rewrite dots_empty.
Qed.

Lemma prefixUnless_cases c s :
  (s = "" ∧ prefixUnless c s = "")
  ∨ (∃ r, prefixUnless c s = String c r ∧ (s = String c r ∨ s = r)).
Proof.
  destruct s as [|c0 r]; [by left|]. right. simpl.
  destruct (Ascii.eqb c0 c) eqn:E.
  - apply Ascii.eqb_eq in E as ->. exists r. auto.
  - exists (String c0 r). auto.
Qed.

Lemma prefixUnless_fixed_end c s :
  isWhiteSpace c = false → trimEnd s = s →
  trimEnd (prefixUnless c s) = prefixUnless c s.
Proof.
  intros Hc Hs. destruct s as [|c0 r]; [done|]. simpl.
  destruct (Ascii.eqb c0 c); [done|].
  apply trimEnd_fixed_cons. split; [done|]. by left.
Qed.

Lemma prefixUnless_fixed c r : prefixUnless c (String c r) = String c r.
Proof. simpl. by rewrite Ascii.eqb_refl. Qed.

(** The class formatter answers with the empty selector or with a selector
    that starts with a dot. *)
Lemma formatClass_cases s :
  (trim s = "" ∧ formatClass s = "") ∨ (∃ r, formatClass s = String "." r).
Proof.
  unfold formatClass.
  destruct (prefixUnless_cases "." (trim s)) as [[-> _]|(r & -> & _)];
    [by left|]. right.
  by exists (replaceChar " " "." (collapseSpaces r)).
Qed.

Lemma formatClass_no_space s : occurs " " (formatClass s) = false.
Proof. by apply replaceChar_gone. Qed.

Lemma formatClass_fixed_end s : trimEnd (formatClass s) = formatClass s.
Proof.
  apply dots_fixed_end, collapseSpaces_fixed_end, prefixUnless_fixed_end;
    [done|apply trim_trimEnd].
Qed.

(** X1.  The class formatter gives the empty selector exactly for a class
    attribute made of white space only; any other selector it gives starts
    with a dot and holds no space. *)
Theorem formatClass_shape (s : string) :
  (formatClass s = "" ↔ allChars isWhiteSpace s = true)
  ∧ (formatClass s = "" ∨ ∃ r, formatClass s = String "." r)
  ∧ occurs " " (formatClass s) = false.
Proof.
  split; [|split; [|apply formatClass_no_space]].
  - rewrite <- trim_empty.
    destruct (formatClass_cases s) as [[Ht Hf]|[r Hf]]; rewrite Hf; [done|].
    split; [done|]. intros Ht. unfold formatClass in Hf. by rewrite Ht in Hf.
  - destruct (formatClass_cases s) as [[_ ?]|?]; auto.
Qed.

(** X2.  Formatting a formatted class selector changes nothing. *)
Theorem formatClass_idempotent (s : string) :
  formatClass (formatClass s) = formatClass s.
Proof.
  destruct (formatClass_cases s) as [[_ ->]|[r Hr]]; [done|].
  pose proof (formatClass_no_space s) as Hsp.
  pose proof (formatClass_fixed_end s) as Hend.
  rewrite Hr in Hsp, Hend |- *. unfold formatClass.
  rewrite trim_fixed, prefixUnless_fixed by done.
  by rewrite collapseSpaces_absent, replaceChar_absent.
Qed.

(** X3.  The id formatter gives the empty selector exactly for an id
    attribute made of white space only, a selector starting with [#]
    otherwise, and formatting a formatted id selector changes nothing. *)
Theorem formatId_shape (s : string) :
  (formatId s = "" ↔ allChars isWhiteSpace s = true)
  ∧ (formatId s = "" ∨ ∃ r, formatId s = String "#" r)
  ∧ formatId (formatId s) = formatId s.
Proof.
  unfold formatId. rewrite <- trim_empty.
  destruct (prefixUnless_cases "#" (trim s)) as [[Ht Hp]|(r & Hp & Hs)].
  - rewrite Hp, Ht. repeat split; auto.
  - assert (trimEnd (String "#" r) = String "#" r) as Hend.
    { rewrite <- Hp. apply prefixUnless_fixed_end; [done|apply trim_trimEnd]. }
    rewrite Hp. split; [|split; [eauto|]].
    + split; [done|]. intros Ht. by rewrite Ht in Hp.
    + by rewrite trim_fixed, prefixUnless_fixed.
Qed.

End formatters.

(** ** Class names in a different order *)

Section class_order.

Lemma isNameChar_spec c :
  isNameChar c = true →
  isWhiteSpace c = false ∧ isCombinator c = false
  ∧ Ascii.eqb c " " = false ∧ Ascii.eqb c "." = false.
Proof.
  unfold isNameChar. intros [Hc Hd]%andb_true_iff.
  apply negb_true_iff in Hc, Hd. repeat split; [|done| |done].
  - unfold isCombinator in Hc. by apply orb_false_iff in Hc as [? _].
  - destruct (Ascii.eqb_spec c " ") as [->|]; [done|done].
Qed.

Lemma trimEnd_append s t : trimEnd t = t → t ≠ "" → trimEnd (s +:+ t) = s +:+ t.
Proof.
  intros Ht Hne. induction s as [|c s IH]; [done|].
  rewrite append_cons. apply trimEnd_fixed_cons. split; [done|]. right.
  destruct s; [done|]. by rewrite append_cons.
Qed.

Lemma name_fixed_end n : allChars isNameChar n = true → trimEnd n = n.
Proof.
  induction n as [|c r IH]; [done|]. simpl.
  intros [Hc Hr]%andb_true_iff. apply trimEnd_fixed_cons. split; [auto|].
  left. by apply isNameChar_spec in Hc as (? & _).
Qed.

Lemma name_no_space n : allChars isNameChar n = true → occurs " " n = false.
Proof.
  induction n as [|c r IH]; [done|]. simpl.
  intros [Hc Hr]%andb_true_iff. apply isNameChar_spec in Hc as (_ & _ & -> & _).
  by apply IH.
Qed.

Lemma name_no_dot n : allChars isNameChar n = true → occurs "." n = false.
Proof.
  induction n as [|c r IH]; [done|]. simpl.
  intros [Hc Hr]%andb_true_iff. apply isNameChar_spec in Hc as (_ & _ & _ & ->).
  by apply IH.
Qed.

Lemma name_no_combinator n : allChars isNameChar n = true → hasCombinator n = false.
Proof.
  induction n as [|c r IH]; [done|]. simpl.
  intros [Hc Hr]%andb_true_iff. apply isNameChar_spec in Hc as (_ & -> & _).
  by apply IH.
Qed.

Lemma hasCombinator_append s t :
  hasCombinator (s +:+ t) = (hasCombinator s || hasCombinator t)%bool.
Proof.
  induction s as [|c s IH]; [done|].
  rewrite append_cons. simpl. by rewrite IH, orb_assoc.
Qed.

Lemma replaceChar_append c by_ s t :
  replaceChar c by_ (s +:+ t) = replaceChar c by_ s +:+ replaceChar c by_ t.
Proof.
  induction s as [|c0 s IH]; [done|].
  rewrite append_cons, !replaceChar_cons, IH.
  destruct (Ascii.eqb c0 c); [by rewrite append_assoc|done].
Qed.

Lemma doubleSpace_absent s : doubleSpace s = false → collapseSpaces s = s.
Proof.
  induction s as [|c r IH]; [done|]. simpl doubleSpace.
  intros [Hc Hr]%orb_false_iff. by rewrite collapseSpaces_cons, Hc, IH.
Qed.

(** A name followed by one space and a text that has no two spaces in a row
    and does not start with a space. *)
Lemma doubleSpace_name n t :
  allChars isNameChar n = true → startsWithSpace t = false →
  doubleSpace t = false → doubleSpace (n +:+ " " +:+ t) = false.
Proof.
  intros Hn Ht Hd. induction n as [|c r IH].
  - change ("" +:+ " " +:+ t) with (String " " t). simpl. by rewrite Ht, Hd.
  - simpl in Hn. apply andb_true_iff in Hn as [Hc Hr].
    apply isNameChar_spec in Hc as (_ & _ & Hc & _).
    rewrite append_cons. simpl. rewrite Hc. simpl. by apply IH.
Qed.

Section names.

Variable names : list string.
Hypothesis classNames : Forall (fun n => isClassName n = true) names.
Hypothesis some : names ≠ [].

Lemma names_head : ∃ c r, join " " names = String c r ∧ isNameChar c = true.
Proof.
  destruct names as [|n l]; [done|]. inversion_clear classNames as [|? ? Hn _].
  apply andb_true_iff in Hn as [Hne Hn]. destruct n as [|c r]; [done|].
  simpl in Hn. apply andb_true_iff in Hn as [Hc _].
  destruct l as [|n' l]; [by exists c, r|].
  rewrite join_cons, append_cons. eauto.
Qed.

Lemma names_fixed_end : trimEnd (join " " names) = join " " names.
Proof.
  induction classNames as [|n [|n' l] Hn Hl IH]; [done| |].
  - apply name_fixed_end. by apply andb_true_iff in Hn as [_ ?].
  - rewrite join_cons. apply trimEnd_append.
    + apply (trimEnd_append " "); [by apply IH|].
      inversion_clear Hl as [|? ? Hn' _].
      apply andb_true_iff in Hn' as [Hne _]. destruct n'; [done|].
      by destruct l.
    + done.
Qed.

Lemma names_trim : trim (join " " names) = join " " names.
Proof.
  destruct names_head as (c & r & E & Hc). rewrite E.
  apply trim_fixed; [by apply isNameChar_spec in Hc as (? & _)|].
  rewrite <- E. apply names_fixed_end.
Qed.

Lemma names_single_spaces :
  doubleSpace (join " " names) = false ∧ startsWithSpace (join " " names) = false.
Proof.
  split.
  - clear some. induction classNames as [|n [|n' l] Hn Hl IH]; [done| |].
    + apply andb_true_iff in Hn as [_ Hn]. clear -Hn.
      induction n as [|c r IH]; [done|]. simpl in *.
      apply andb_true_iff in Hn as [Hc Hr].
      apply isNameChar_spec in Hc as (_ & _ & -> & _). by apply IH.
    + rewrite join_cons. apply andb_true_iff in Hn as [_ Hn].
      apply doubleSpace_name; [done| |by apply IH].
      inversion_clear Hl as [|? ? Hn' _].
      apply andb_true_iff in Hn' as [Hne Hn']. destruct n' as [|c r]; [done|].
      simpl in Hn'. apply andb_true_iff in Hn' as [Hc _].
      apply isNameChar_spec in Hc as (_ & _ & Hc & _).
      destruct l; [done|]. by rewrite join_cons, append_cons.
  - destruct names_head as (c & r & -> & Hc).
    by apply isNameChar_spec in Hc as (_ & _ & ? & _).
Qed.

Lemma names_dots : replaceChar " " "." (join " " names) = join "." names.
Proof.
  clear some. induction classNames as [|n [|n' l] Hn Hl IH].
  - done.
  - apply replaceChar_absent, name_no_space. by apply andb_true_iff in Hn as [_ ?].
  - rewrite !join_cons, !replaceChar_append, IH by done.
    rewrite (replaceChar_absent _ _ n); [done|].
    apply name_no_space. by apply andb_true_iff in Hn as [_ ?].
Qed.

(** The selector of a list of class names: a dot, then the names joined by
    dots. *)
Lemma formatClass_names :
  formatClass (join " " names) = String "." (join "." names).
Proof.
  unfold formatClass. rewrite names_trim.
  destruct names_head as (c & r & E & Hc).
  apply isNameChar_spec in Hc as (_ & _ & Hsp & Hdot).
  assert (prefixUnless "." (join " " names) = String "." (join " " names)) as ->.
  { rewrite E. simpl. by rewrite Hdot. }
  rewrite collapseSpaces_cons. simpl.
  destruct names_single_spaces as [Hd _].
  rewrite doubleSpace_absent by done.
  by rewrite names_dots.
Qed.

Lemma names_no_combinator : hasCombinator (join "." names) = false.
Proof.
  clear some. induction classNames as [|n [|n' l] Hn Hl IH]; [done| |].
  - apply name_no_combinator. by apply andb_true_iff in Hn as [_ ?].
  - rewrite join_cons, !hasCombinator_append, IH by done.
    rewrite name_no_combinator; [done|]. by apply andb_true_iff in Hn as [_ ?].
Qed.

Lemma names_split : split "." (String "." (join "." names)) = "" :: names.
Proof.
  change (String "." (join "." names)) with ("" +:+ String "." (join "." names)).
  rewrite split_app by done. f_equal. apply split_join; [done|].
  eapply Forall_impl; [exact classNames|]. intros n Hn. simpl in Hn.
  apply name_no_dot. by apply andb_true_iff in Hn as [_ ?].
Qed.

End names.

(** Two lists of the same class names give equivalent dotted selectors. *)
Lemma compareSelector_dotted (names names' : list string) :
  Forall (fun n => isClassName n = true) names → names ≠ [] →
  names ≡ₚ names' →
  compareSelector (String "." (join "." names)) (String "." (join "." names'))
    = true.
Proof.
  intros Hn Hne Hp.
  assert (Forall (fun n => isClassName n = true) names') as Hn'
    by by rewrite <- Hp.
  assert (names' ≠ []) as Hne'.
  { intros ->. by apply Permutation_nil_r in Hp. }
  assert (∀ ns, Forall (fun n => isClassName n = true) ns →
                hasCombinator (String "." (join "." ns)) = false) as Hc.
  { intros ns Hns.
    change (hasCombinator (String "." (join "." ns)))
      with (isCombinator "." || hasCombinator (join "." ns))%bool.
    by rewrite names_no_combinator. }
  unfold compareSelector. rewrite !Hc by done.
  cbv beta iota delta [orb]. rewrite !names_split by done.
  rewrite (sort_perm_eq ("" :: names) ("" :: names')) by by constructor.
  apply String.eqb_refl.
Qed.

(** The attribute as it is written: any white space around the names, one
    or more spaces between them. *)

Lemma trimStart_lead lead x :
  allChars isWhiteSpace lead = true → trimStart (lead +:+ x) = trimStart x.
Proof.
  induction lead as [|c r IH]; [done|]. intros H. simpl in H.
  apply andb_true_iff in H as [Hc Hr].
  rewrite append_cons. cbn [trimStart]. rewrite Hc. by apply IH.
Qed.

Lemma trimEnd_trail x trail :
  allChars isWhiteSpace trail = true → trimEnd (x +:+ trail) = trimEnd x.
Proof.
  intros Ht. induction x as [|c r IH].
  - by apply trimEnd_empty.
  - by rewrite append_cons, !trimEnd_cons, IH.
Qed.

Lemma collapseSpaces_name n t :
  occurs " " n = false → collapseSpaces (n +:+ t) = n +:+ collapseSpaces t.
Proof.
  induction n as [|c r IH]; [done|]. simpl occurs.
  intros [Hc Hr]%orb_false_iff.
  by rewrite !append_cons, collapseSpaces_cons, Hc, IH.
Qed.

Lemma collapseSpaces_gap k t :
  startsWithSpace t = false →
  collapseSpaces (spaces (S k) +:+ t) = String " " (collapseSpaces t).
Proof.
  intros Ht. induction k as [|k IH].
  - change (spaces 1 +:+ t) with (String " " t).
    by rewrite collapseSpaces_cons, Ht.
  - change (spaces (S (S k)) +:+ t) with (String " " (spaces (S k) +:+ t)).
    by rewrite collapseSpaces_cons, IH.
Qed.

Lemma className_head n t :
  isClassName n = true →
  ∃ c r, n +:+ t = String c r ∧ isNameChar c = true.
Proof.
  intros [Hne Hn]%andb_true_iff. destruct n as [|c r]; [done|].
  simpl in Hn. apply andb_true_iff in Hn as [Hc _].
  exists c, (r +:+ t). by rewrite append_cons.
Qed.

Lemma className_start n t : isClassName n = true → startsWithSpace (n +:+ t) = false.
Proof.
  intros (c & r & -> & Hc)%(className_head n t).
  by apply isNameChar_spec in Hc as (_ & _ & ? & _).
Qed.

Lemma spaced_collapse first more :
  Forall (fun n => isClassName n = true) (namesOf first more) →
  collapseSpaces (first +:+ spaced more) = join " " (namesOf first more).
Proof.
  revert first. induction more as [|[k n] more IH]; intros first Hall.
  - rewrite append_empty_r. apply collapseSpaces_absent, name_no_space.
    apply Forall_cons in Hall as [Hf _]. by apply andb_true_iff in Hf as [_ ?].
  - apply Forall_cons in Hall as [Hf Hall].
    pose proof Hall as Hn. apply Forall_cons in Hn as [Hn _].
    apply andb_true_iff in Hf as [_ Hf].
    change (spaced ((k, n) :: more))
      with (spaces (S k) +:+ n +:+ spaced more).
    rewrite collapseSpaces_name by by apply name_no_space.
    rewrite collapseSpaces_gap by by apply className_start.
    by rewrite (IH n).
Qed.

Lemma spaced_fixed_end first more :
  Forall (fun n => isClassName n = true) (namesOf first more) →
  trimEnd (first +:+ spaced more) = first +:+ spaced more.
Proof.
  revert first. induction more as [|[k n] more IH]; intros first Hall.
  - rewrite append_empty_r. apply name_fixed_end.
    apply Forall_cons in Hall as [Hf _]. by apply andb_true_iff in Hf as [_ ?].
  - apply Forall_cons in Hall as [_ Hall].
    pose proof Hall as Hn. apply Forall_cons in Hn as [Hn _].
    destruct (className_head n (spaced more) Hn) as (c & r & E & _).
    change (spaced ((k, n) :: more))
      with (spaces (S k) +:+ n +:+ spaced more).
    apply trimEnd_append.
    + apply trimEnd_append; [by apply (IH n)|]. by rewrite E.
    + done.
Qed.

(** The selector of a well written attribute: a dot, then its names joined
    by dots. *)
Lemma formatClass_written lead first more trail :
  wellWritten lead first more trail = true →
  formatClass (written lead first more trail)
    = String "." (join "." (namesOf first more)).
Proof.
  intros [[Hlead Htrail]%andb_true_iff Hnames]%andb_true_iff.
  assert (Forall (fun n => isClassName n = true) (namesOf first more)) as Hall.
  { apply Forall_forall. intros n Hin.
    by apply (proj1 (forallb_forall _ _) Hnames), list_elem_of_In. }
  pose proof Hall as Hf. apply Forall_cons in Hf as [Hf _].
  destruct (className_head first (spaced more) Hf) as (c & r & E & Hc).
  pose proof (spaced_fixed_end first more Hall) as Hend.
  apply isNameChar_spec in Hc as (Hws & _ & Hsp & Hdot).
  assert (trim (written lead first more trail) = first +:+ spaced more) as Ht.
  { unfold trim, written. rewrite <- append_assoc, trimEnd_trail by done.
    rewrite trimEnd_append, trimStart_lead by (done || by rewrite E).
    rewrite E. simpl. by rewrite Hws. }
  unfold formatClass. rewrite Ht, E. simpl prefixUnless. rewrite Hdot, <- E.
  rewrite collapseSpaces_cons. simpl andb. cbv iota.
  rewrite spaced_collapse by done.
  change (replaceChar " " "." (String "." (join " " (namesOf first more))))
    with (String "." (replaceChar " " "." (join " " (namesOf first more)))).
  by rewrite names_dots.
Qed.

(** X4.  Two class attributes that list the same class names in a different
    order give equivalent selectors, when the names stand one or more
    spaces apart with any white space around the list: the selector of such
    an attribute is a dot followed by its names joined by dots.  A tab
    between two names is no separator: it stays in the selector, and the
    two orders of the names are then not equivalent. *)
Theorem formatClass_names_order (lead first trail lead' first' trail' : string)
    (more more' : list (nat * string)) :
  wellWritten lead first more trail = true →
  wellWritten lead' first' more' trail' = true →
  namesOf first more ≡ₚ namesOf first' more' →
  formatClass (written lead first more trail)
    = "." +:+ join "." (namesOf first more)
  ∧ compareSelector (formatClass (written lead first more trail))
                    (formatClass (written lead' first' more' trail')) = true
  ∧ compareSelector (formatClass (tabbed "button" "primary"))
                    (formatClass (tabbed "primary" "button")) = false.
Proof.
  intros Hw Hw' Hp. rewrite !formatClass_written by done.
  split; [done|]. split; [|vm_compute; reflexivity].
  apply compareSelector_dotted; [|done|done].
  apply andb_true_iff in Hw as [_ Hnames].
  apply Forall_forall. intros n Hin.
  by apply (proj1 (forallb_forall _ _) Hnames), list_elem_of_In.
Qed.

Lemma formatClass_names_order_witness :
  formatClass " button   primary large "
    = ".button.primary.large"
  ∧ compareSelector (formatClass " button   primary large ")
                    (formatClass "large button  primary") = true.
Proof.
  destruct (formatClass_names_order " " "button" " " "" "large" ""
              [(2, "primary"); (0, "large")] [(0, "button"); (1, "primary")]
              eq_refl eq_refl) as (H1 & H2 & _).
  - change (namesOf "button" [(2, "primary"); (0, "large")])
      with (["button"; "primary"] ++ ["large"]).
    change (namesOf "large" [(0, "button"); (1, "primary")])
      with (["large"] ++ ["button"; "primary"]).
    apply Permutation_app_comm.
  - split; [exact H1 | exact H2].
Defined.

End class_order.

(** ** The comparator as an equivalence *)

Section equivalence.

Lemma compareSelector_true A B :
  compareSelector A B = true ↔
  (hasCombinator A || hasCombinator B = true)%bool ∧ A = B
  ∨ (hasCombinator A || hasCombinator B = false)%bool
    ∧ sort (split "." A) = sort (split "." B).
Proof.
  unfold compareSelector.
  destruct (hasCombinator A || hasCombinator B)%bool.
  - rewrite String.eqb_eq. split; [by left|]. by intros [[_ ?]|[? _]].
  - rewrite String.eqb_eq, (join_sorted_inj "." A B).
    split; [by right|]. by intros [[? _]|[_ ?]].
Qed.

(** X5.  The comparator is reflexive and transitive (and symmetric, see
    [compareSelector_sym]): it is an equivalence on selectors. *)
Theorem compareSelector_equivalence (A B C : string) :
  compareSelector A A = true
  ∧ (compareSelector A B = true → compareSelector B C = true →
     compareSelector A C = true).
Proof.
  split; [apply compareSelector_refl|].
  rewrite !compareSelector_true.
  intros [[H1 ->]|[H1 E1]] [[H2 <-]|[H2 E2]].
  - by left.
  - by right.
  - by right.
  - apply orb_false_iff in H1 as [HA HB]. apply orb_false_iff in H2 as [_ HC].
    right. split; [by rewrite HA, HC | congruence].
Qed.

Lemma compareSelector_equivalence_witness :
  compareSelector ".a.b.c" ".b.c.a" = true.
Proof.
  refine (proj2 (compareSelector_equivalence ".a.b.c" ".c.a.b" ".b.c.a") _ _);
    vm_compute; reflexivity.
Defined.

End equivalence.

(** ** The algebra of [mergeProps] *)

Section merge_laws.

Lemma sorted_set_eq (l l' : list string) :
  Sorted String.le l → Sorted String.le l' → NoDup l → NoDup l' →
  (∀ x, x ∈ l ↔ x ∈ l') → l = l'.
Proof.
  intros Hs Hs' Hn Hn' Hin.
  apply (Sorted_unique String.le); [done..|]. by apply NoDup_Permutation.
Qed.

(** X6.  [mergeProps] returns a sorted list that holds exactly the entries
    of its two arguments; the result has no repeated entry when the first
    argument has none, whatever the second holds. *)
Theorem mergeProps_union (props1 props2 : list string) :
  Sorted String.le (mergeProps props1 props2)
  ∧ (∀ x, x ∈ mergeProps props1 props2 ↔ x ∈ props1 ∨ x ∈ props2)
  ∧ (NoDup props1 → NoDup (mergeProps props1 props2)).
Proof.
  split; [apply mergeProps_Sorted|].
  split; [apply mergeProps_elem | apply mergeProps_NoDup].
Qed.

Lemma mergeProps_union_witness :
  NoDup (mergeProps ["margin: 0"; "color: red"]
                    ["color: red"; "color: red"; "border: 0"]).
Proof.
  apply (proj2 (proj2 (mergeProps_union ["margin: 0"; "color: red"]
                         ["color: red"; "color: red"; "border: 0"]))).
  apply NoDup_cons. split.
  - intros H. apply list_elem_of_singleton in H. discriminate H.
  - apply NoDup_singleton.
Defined.

(** X7.  On lists without repeated entry [mergeProps] is commutative; it is
    associative as soon as the leftmost list has no repeated entry; merging
    the same list in a second time changes nothing. *)
Theorem mergeProps_laws (a b c : list string) :
  (NoDup a → NoDup b → mergeProps a b = mergeProps b a)
  ∧ (NoDup a → mergeProps (mergeProps a b) c = mergeProps a (mergeProps b c))
  ∧ mergeProps (mergeProps a b) b = mergeProps a b.
Proof.
  split; [|split].
  - intros Ha Hb.
    apply sorted_set_eq; try apply mergeProps_Sorted;
      try by apply mergeProps_NoDup.
    intros x. rewrite !mergeProps_elem. tauto.
  - intros Ha.
    apply sorted_set_eq; try apply mergeProps_Sorted;
      try by repeat apply mergeProps_NoDup.
    intros x. rewrite !mergeProps_elem. tauto.
  - unfold mergeProps at 1. rewrite fold_pushNew_included.
    + apply sort_sorted, mergeProps_Sorted.
    + intros x Hx. apply mergeProps_elem. by right.
Qed.

Lemma mergeProps_laws_witness :
  mergeProps ["margin: 0"; "color: red"] ["border: 0"]
    = mergeProps ["border: 0"] ["margin: 0"; "color: red"].
Proof.
  apply (proj1 (mergeProps_laws ["margin: 0"; "color: red"] ["border: 0"] [])).
  - apply NoDup_cons. split.
    + intros H. apply list_elem_of_singleton in H. discriminate H.
    + apply NoDup_singleton.
  - apply NoDup_singleton.
Defined.

End merge_laws.

(** ** The property normalizer on whole attributes *)

Section attributes.

Lemma split_append sep a b :
  split sep (a +:+ String sep b) = split sep a ++ split sep b.
Proof.
  induction a as [|c a IH].
  - change ("" +:+ String sep b) with (String sep b). simpl.
    by rewrite Ascii.eqb_refl.
  - rewrite append_cons. simpl. rewrite IH.
    destruct (Ascii.eqb c sep); [done|].
    pose proof (split_not_nil sep a) as Hne.
    by destruct (split sep a).
Qed.

Lemma whitespace_no_semicolon s :
  allChars isWhiteSpace s = true → occurs ";" s = false.
Proof.
  induction s as [|c r IH]; [done|]. simpl.
  intros [Hc Hr]%andb_true_iff. rewrite IH by done.
  destruct (Ascii.eqb_spec c ";") as [->|]; done.
Qed.

(** X8.  A style attribute that is absent, empty or made of white space
    only gives no property. *)
Theorem formatProps_blank (style : option string) :
  blank style = true → formatProps style = [].
Proof.
  destruct style as [text|]; [|done]. intros Hw.
  change (allChars isWhiteSpace text = true) in Hw.
  rewrite formatProps_text, split_whole by by apply whitespace_no_semicolon.
  cbn [List.filter]. unfold kept. apply trim_empty in Hw. by rewrite Hw.
Qed.

Lemma formatProps_blank_witness : formatProps (Some "   ") = [].
Proof. apply formatProps_blank. reflexivity. Defined.

Lemma split_join_flat sep l :
  l ≠ [] → split sep (join (String sep "") l) = flat_map (split sep) l.
Proof.
  induction l as [|x [|y l] IH]; [done| |]; intros _.
  - simpl. by rewrite app_nil_r.
  - rewrite join_cons.
    change (x +:+ String sep "" +:+ join (String sep "") (y :: l))
      with (x +:+ String sep (join (String sep "") (y :: l))).
    by rewrite split_append, IH.
Qed.

Lemma filter_permutation {A} (p : A → bool) (l l' : list A) :
  l ≡ₚ l' → List.filter p l ≡ₚ List.filter p l'.
Proof.
  induction 1 as [|x l l' _ IH|x y l|l l' l'' _ IH _ IH']; simpl.
  - done.
  - destruct (p x); [by constructor | done].
  - destruct (p x), (p y); try done. apply perm_swap.
  - by etrans.
Qed.

(** X9.  The normalized list does not depend on the order in which the
    declarations are written in the attribute: two attributes made of the
    same fragments, joined by semicolons in any two orders, give the same
    list.  A semicolon at the end of the attribute adds nothing. *)
Theorem formatProps_declaration_order (fragments fragments' : list string) :
  fragments ≡ₚ fragments' →
  formatProps (Some (join ";" fragments))
    = formatProps (Some (join ";" fragments'))
  ∧ ∀ text, formatProps (Some (text +:+ ";")) = formatProps (Some text).
Proof.
  intros Hp. split.
  - destruct fragments as [|f l].
    { apply Permutation_nil_l in Hp as <-. done. }
    assert (fragments' ≠ []) as Hne.
    { intros ->. by apply Permutation_nil_r in Hp. }
    rewrite !formatProps_text, !split_join_flat by done.
    apply sort_perm_eq, Permutation_map, filter_permutation.
    by apply Permutation_flat_map.
  - intros text. rewrite !formatProps_text.
    change (text +:+ ";") with (text +:+ String ";" "").
    rewrite split_append, List.filter_app. simpl. by rewrite app_nil_r.
Qed.

Lemma formatProps_declaration_order_witness :
  formatProps (Some "color: red;margin: 0;border: 0")
    = formatProps (Some "margin: 0;color: red;border: 0").
Proof.
  apply (proj1 (formatProps_declaration_order
                  ["color: red"; "margin: 0"; "border: 0"]
                  ["margin: 0"; "color: red"; "border: 0"]
                  (perm_swap _ _ _))).
Defined.

End attributes.

(** ** What the merge step keeps *)

Section keeps.

Lemma upsert_selectors result value newProps :
  map selector (upsert result value newProps) = map selector result
  ∨ upsert result value newProps = result ++ [mkStyle value newProps].
Proof.
  destruct (upsert_cases result value newProps)
    as [[_ ->]|(i & style & Hi & _ & ->)]; [by right|]. left.
  rewrite list_fmap_insert. simpl.
  apply list_insert_id. by rewrite list_lookup_fmap, Hi.
Qed.

Lemma upsert_prefix result value newProps :
  map selector result `prefix_of` map selector (upsert result value newProps).
Proof.
  destruct (upsert_selectors result value newProps) as [->| ->]; [done|].
  rewrite map_app. by apply prefix_app_r.
Qed.

Lemma elementStep_prefix sel result el draws result' rest :
  elementStep sel result el draws = Returned result' rest →
  map selector result `prefix_of` map selector result'.
Proof.
  intros (value & mid & _ & H)%bind_Returned. injection H as <- _.
  destruct (truthy value); [apply upsert_prefix | done].
Qed.

Lemma foldM_elementStep_prefix sel els result draws result' rest :
  foldM (elementStep sel) result els draws = Returned result' rest →
  map selector result `prefix_of` map selector result'.
Proof.
  revert result draws. induction els as [|el els IH]; intros result draws.
  - by intros [= <- _].
  - simpl. intros (mid & draws' & Hstep & Hrest)%bind_Returned.
    etrans; [by eapply elementStep_prefix | by eapply IH].
Qed.

Lemma fold_ruleStep_prefix rules result :
  map selector result `prefix_of` map selector (fold_left ruleStep rules result).
Proof.
  revert result. induction rules as [|rule rules IH]; intros result; [done|].
  simpl. etrans; [apply upsert_prefix | apply IH].
Qed.

(** X10.  A selector keeps the position at which it was first inserted:
    the merge step leaves the sequence of selectors as it is or adds one at
    the end.  In the result of an extraction the rules that come from
    inline styles stand first, in the order the loop over the elements left
    them; rules that only style blocks bring follow. *)
Theorem extractStyles_keeps_positions (options : Options)
    (draws : list string) (final : list Style) (rest : list string) :
  extractStyles options draws = Returned final rest →
  (∀ result value newProps,
     map selector result `prefix_of` map selector (upsert result value newProps))
  ∧ ∃ inline mid,
      foldM (elementStep (selectorOption options)) []
            (styled (html options)) draws = Returned inline mid
      ∧ map selector inline `prefix_of` map selector final.
Proof.
  intros (inline & mid & Hinline & H)%bind_Returned.
  split; [apply upsert_prefix|]. exists inline, mid. split; [done|].
  destruct (styleTags options); [|by injection H as <- _].
  rewrite foldM_styleBlockStep in H.
  destruct (firstError (styleBlocks (html options))); [done|].
  injection H as <- _. apply fold_ruleStep_prefix.
Qed.

Lemma extractStyles_keeps_positions_witness :
  extractStyles taggedPage []
    = Returned [mkStyle ".test" ["color: red"];
                mkStyle ".existing" ["margin: 10px"]] []
  ∧ ∃ inline mid,
      foldM (elementStep (selectorOption taggedPage)) []
            (styled (html taggedPage)) [] = Returned inline mid
      ∧ map selector inline `prefix_of` [".test"; ".existing"].
Proof.
  split; [reflexivity|].
  exact (proj2 (extractStyles_keeps_positions taggedPage []
                  [mkStyle ".test" ["color: red"];
                   mkStyle ".existing" ["margin: 10px"]] [] eq_refl)).
Defined.

(** X11.  The merge step loses nothing: every entry keeps its place, its
    selector and all its properties, and the new properties are all found
    in an entry whose selector is equivalent to the new selector. *)
Theorem upsert_keeps_properties (result : list Style) (value : string)
    (newProps : list string) :
  (∀ i style, result !! i = Some style →
     ∃ style', upsert result value newProps !! i = Some style'
               ∧ selector style' = selector style
               ∧ ∀ x, x ∈ props style → x ∈ props style')
  ∧ ∃ j style', upsert result value newProps !! j = Some style'
                ∧ compareSelector (selector style') value = true
                ∧ ∀ x, x ∈ newProps → x ∈ props style'.
Proof.
  destruct (upsert_cases result value newProps)
    as [[_ ->]|(k & found & Hk & Hp & ->)].
  - split.
    + intros i style Hi. exists style. split; [|done].
      by apply lookup_app_l_Some.
    + exists (length result), (mkStyle value newProps).
      split; [by rewrite list_lookup_middle|].
      split; [apply compareSelector_refl | done].
  - pose proof (lookup_lt_Some _ _ _ Hk) as Hlt. split.
    + intros i style Hi. destruct (decide (i = k)) as [->|Hne].
      * rewrite Hk in Hi. injection Hi as <-.
        eexists. split; [by apply list_lookup_insert_eq|]. split; [done|].
        intros x Hx. apply mergeProps_elem. by left.
      * exists style. by rewrite list_lookup_insert_ne.
    + eexists k, _. split; [by apply list_lookup_insert_eq|]. split; [done|].
      intros x Hx. apply mergeProps_elem. by right.
Qed.

Lemma upsert_keeps_properties_witness :
  ∃ style', upsert [mkStyle ".a" ["x: 1"]] ".a" ["color: red"] !! 0
              = Some style'
            ∧ selector style' = ".a"
            ∧ ∀ x, x ∈ ["x: 1"] → x ∈ props style'.
Proof.
  exact (proj1 (upsert_keeps_properties [mkStyle ".a" ["x: 1"]] ".a"
                  ["color: red"]) 0 (mkStyle ".a" ["x: 1"]) eq_refl).
Defined.

End keeps.

(** ** What an extraction can and cannot do *)

Section outcomes.

(** A computation that does not throw. *)
Lemma bind_Thrown {A B} (m : M A) (k : A → M B) draws e :
  (x <- m ;; k x) draws = Thrown e ↔
  m draws = Thrown e ∨ ∃ a mid, m draws = Returned a mid ∧ k a mid = Thrown e.
Proof.
  unfold bind. destruct (m draws) as [a mid|e'|].
  - split; [eauto|]. by intros [?|(a' & mid' & [= <- <-] & ?)].
  - split; [intros [= ->]; by left|].
    by intros [[= ->]|(? & ? & ? & _)].
  - split; [done|]. by intros [?|(? & ? & ? & _)].
Qed.

Lemma generateHash_not_Thrown draws e : generateHash draws ≠ Thrown e.
Proof.
  induction draws as [|random draws IH]; [done|]. rewrite generateHash_cons.
  by destruct (template (slice 2 random)).
Qed.

Lemma foldM_not_Thrown {A B} (f : A → B → M A) l :
  (∀ a b draws e, f a b draws ≠ Thrown e) →
  ∀ a draws e, foldM f a l draws ≠ Thrown e.
Proof.
  intros Hf. induction l as [|b l IH]; intros a draws e; [done|]. simpl.
  intros [H|(a' & mid & _ & H)]%bind_Thrown; [by eapply Hf | by eapply IH].
Qed.

Lemma selectorStep_not_Thrown className id name type draws e :
  selectorStep className id name type draws ≠ Thrown e.
Proof.
  unfold selectorStep.
  destruct (truthy name || SelectorType.eqb type SelectorType.class)%bool;
    [done|].
  destruct (SelectorType.eqb type SelectorType.id); [done|].
  intros [H|(a & mid & _ & H)]%bind_Thrown; [|done].
  by eapply generateHash_not_Thrown.
Qed.

Lemma elementStep_not_Thrown sel result el draws e :
  elementStep sel result el draws ≠ Thrown e.
Proof.
  intros [H|(a & mid & _ & H)]%bind_Thrown; [|done].
  revert H. apply foldM_not_Thrown. intros. apply selectorStep_not_Thrown.
Qed.

(** X12.  The only error an extraction throws is the parser's: it throws
    only when style-tag extraction is on, and then the error of the first
    rejected style block. *)
Theorem extractStyles_throws_parser_error (options : Options)
    (draws : list string) (e : CssSyntaxError) :
  extractStyles options draws = Thrown e →
  styleTags options = true
  ∧ firstError (styleBlocks (html options)) = Some e.
Proof.
  intros [H|(inline & mid & _ & H)]%bind_Thrown.
  - exfalso. revert H. apply foldM_not_Thrown.
    intros. apply elementStep_not_Thrown.
  - destruct (styleTags options); [|done]. split; [done|].
    rewrite foldM_styleBlockStep in H.
    destruct (firstError (styleBlocks (html options))); [|done].
    by injection H as ->.
Qed.

Lemma extractStyles_throws_parser_error_witness :
  extractStyles malformedPage [] = Thrown (mkError "Unclosed block")
  ∧ firstError (styleBlocks (html malformedPage))
    = Some (mkError "Unclosed block").
Proof.
  split; [reflexivity|].
  exact (proj2 (extractStyles_throws_parser_error malformedPage []
                  (mkError "Unclosed block") eq_refl)).
Defined.

End outcomes.

(** ** The rules that inline styles give *)

Section inline.

Lemma upsert_wellFormed result value newProps :
  Forall wellFormed result → truthy value = true → Sorted String.le newProps →
  Forall wellFormed (upsert result value newProps).
Proof.
  intros Hall Hv Hs.
  destruct (upsert_cases result value newProps)
    as [[_ ->]|(i & style & Hi & _ & ->)].
  - apply Forall_app. split; [done|]. by repeat constructor.
  - apply Forall_insert; [done|]. split; [|apply mergeProps_Sorted].
    simpl. apply list_elem_of_lookup_2 in Hi.
    rewrite Forall_forall in Hall. by apply Hall.
Qed.

Lemma upsert_length result value newProps :
  length (upsert result value newProps) ≤ S (length result).
Proof.
  destruct (upsert_cases result value newProps)
    as [[_ ->]|(i & style & _ & _ & ->)].
  - rewrite length_app. simpl. lia.
  - rewrite length_insert. lia.
Qed.

Lemma foldM_elementStep_wellFormed sel els result draws result' rest :
  Forall wellFormed result →
  foldM (elementStep sel) result els draws = Returned result' rest →
  Forall wellFormed result' ∧ length result' ≤ length result + length els.
Proof.
  revert result draws. induction els as [|el els IH]; intros result draws Hall.
  - intros [= <- _]. split; [done|]. simpl. lia.
  - simpl. intros (mid & draws' & Hstep & Hrest)%bind_Returned.
    apply bind_Returned in Hstep as (value & d & _ & Hstep).
    injection Hstep as <- _.
    destruct (truthy value) eqn:Hv.
    + apply IH in Hrest as [? Hlen].
      * split; [done|]. pose proof (upsert_length result value
                                      (formatProps (attr_style el))). lia.
      * apply upsert_wellFormed; [done..|apply formatProps_Sorted].
    + apply IH in Hrest as [? Hlen]; [|done]. split; [done|lia].
Qed.

(** X13.  With style-tag extraction off, every rule of the result has a
    non-empty selector and a sorted property list, and there are at most as
    many rules as elements carrying a style attribute. *)
Theorem extractStyles_inline_rules (options : Options) (draws : list string)
    (result : list Style) (rest : list string) :
  styleTags options = false →
  extractStyles options draws = Returned result rest →
  Forall (fun style => truthy (selector style) = true
                       ∧ Sorted String.le (props style)) result
  ∧ length result ≤ length (styled (html options)).
Proof.
  intros Htags (inline & mid & Hinline & H)%bind_Returned.
  rewrite Htags in H. injection H as <- _.
  by apply foldM_elementStep_wellFormed in Hinline.
Qed.

Lemma extractStyles_inline_rules_witness :
  extractStyles classlessPage []
    = Returned [mkStyle ".note" ["color: red"; "margin: 0"]] []
  ∧ length [mkStyle ".note" ["color: red"; "margin: 0"]] ≤ 2.
Proof.
  split; [reflexivity|].
  exact (proj2 (extractStyles_inline_rules classlessPage [] _ []
                  eq_refl eq_refl)).
Defined.

Lemma attribute_blank a :
  blank a = true →
  formatClass (attribute a) = "" ∧ formatId (attribute a) = "".
Proof.
  destruct a as [v|]; [|done]. intros Hw.
  change (allChars isWhiteSpace v = true) in Hw. apply trim_empty in Hw.
  unfold attribute. rewrite or_else_empty.
  unfold formatClass, formatId. by rewrite Hw.
Qed.

(** X14.  An element whose attribute for the configured strategy is absent,
    empty or white space only is skipped: the accumulated sequence stays as
    it is and the random source is not read.  This holds for the strategy
    [class], for the strategy [id], and for the list [[class, id]] when both
    attributes are so. *)
Theorem elementStep_skips (result : list Style) (el : Element)
    (draws : list string) :
  (blank (attr_class el) = true →
   elementStep (One SelectorType.class) result el draws = Returned result draws)
  ∧ (blank (attr_id el) = true →
     elementStep (One SelectorType.id) result el draws = Returned result draws)
  ∧ (blank (attr_class el) = true → blank (attr_id el) = true →
     elementStep (Many [SelectorType.class; SelectorType.id]) result el draws
       = Returned result draws).
Proof.
  split; [|split].
  - intros [Hc _]%attribute_blank. unfold elementStep, bind.
    unfold generateSelector. simpl. unfold bind, selectorStep. simpl.
    by rewrite or_else_empty, Hc.
  - intros [_ Hi]%attribute_blank. unfold elementStep, bind.
    unfold generateSelector. simpl. unfold bind, selectorStep. simpl.
    by rewrite or_else_empty, Hi.
  - intros [Hc _]%attribute_blank [_ Hi]%attribute_blank.
    unfold elementStep, bind. rewrite generateSelector_class_id.
    by rewrite Hc, Hi.
Qed.

Lemma elementStep_skips_witness :
  elementStep (One SelectorType.class) [mkStyle ".note" ["margin: 0"]]
              (div None (Some "main") "color: blue;") []
    = Returned [mkStyle ".note" ["margin: 0"]] [].
Proof.
  apply (proj1 (elementStep_skips [mkStyle ".note" ["margin: 0"]]
                  (div None (Some "main") "color: blue;") [])).
  reflexivity.
Defined.

End inline.

(** ** The strategies *)

Section strategies.

Lemma foldM_selectorStep_named className id types name draws :
  truthy name = true → truthy (formatClass className) = true →
  foldM (selectorStep className id) name types draws
    = Returned (match types with [] => name | _ => formatClass className end)
               draws.
Proof.
  intros Hname Hclass. revert name Hname.
  induction types as [|type types IH]; intros name Hname; [done|].
  simpl. unfold bind. rewrite selectorStep_named, IH by done.
  by destruct types.
Qed.

Lemma selectorStep_class className id name draws :
  selectorStep className id name SelectorType.class draws
    = Returned (formatClass className) draws.
Proof.
  unfold selectorStep. simpl. by rewrite orb_true_r, or_else_empty.
Qed.

Lemma selectorStep_id className id name draws :
  selectorStep className id name SelectorType.id draws
    = Returned (if truthy name then formatClass className else formatId id)
               draws.
Proof.
  unfold selectorStep. simpl. rewrite orb_false_r, !or_else_empty.
  by destruct (truthy name).
Qed.

(** X15.  In a list of strategies without [hash], the strategy [class]
    takes precedence wherever it stands: when the class-derived selector is
    not empty it is the selector generated, also for the list [[id, class]]
    and an element that has an id. *)
Theorem generateSelector_class_precedence (className id : string)
    (types : list SelectorType.t) (draws : list string) :
  SelectorType.hash ∉ types →
  SelectorType.class ∈ types →
  truthy (formatClass className) = true →
  generateSelector className id (Many types) draws
    = Returned (formatClass className) draws.
Proof.
  intros Hhash Hclass Htruthy. unfold generateSelector. simpl strategies.
  generalize EmptyString. induction types as [|type types IH]; intros name.
  { by apply elem_of_nil in Hclass. }
  apply not_elem_of_cons in Hhash as [Hne Hhash].
  cbn [foldM]. unfold bind.
  destruct type; [| |done].
  - rewrite selectorStep_class, foldM_selectorStep_named by done.
    by destruct types.
  - apply elem_of_cons in Hclass as [?|Hclass]; [done|].
    rewrite selectorStep_id. by apply IH.
Qed.

Lemma generateSelector_class_precedence_witness :
  generateSelector "myclass" "myid"
    (Many [SelectorType.id; SelectorType.class]) [] = Returned ".myclass" [].
Proof.
  apply (generateSelector_class_precedence "myclass" "myid"
           [SelectorType.id; SelectorType.class] []).
  - intros H. apply elem_of_cons in H as [H|H]; [discriminate H|].
    apply list_elem_of_singleton in H. discriminate H.
  - apply list_elem_of_further, list_elem_of_here.
  - reflexivity.
Defined.

(** X16.  The loop of the hash strategy reads the draws up to the first one
    whose token does not start with a digit, returns that token and leaves
    the draws after it; it never throws, and it is still running at the end
    of the supply exactly when every token of the supply starts with a
    digit. *)
Theorem generateHash_loop (draws : list string) :
  match generateHash draws with
  | Returned hash rest =>
      ∃ read random,
        draws = read ++ random :: rest
        ∧ Forall (fun r => template (slice 2 r) = true) read
        ∧ hash = slice 2 random ∧ template hash = false
  | Thrown _ => False
  | Pending => Forall (fun r => template (slice 2 r) = true) draws
  end.
Proof.
  induction draws as [|random draws IH]; [by constructor|].
  rewrite generateHash_cons.
  destruct (template (slice 2 random)) eqn:E.
  - destruct (generateHash draws) as [hash rest|e|]; [|done|by constructor].
    destruct IH as (read & random' & -> & Hread & -> & Ht).
    exists (random :: read), random'.
    split; [done|]. split; [by constructor|]. by split.
  - exists [], random. by repeat split.
Qed.

End strategies.

(** ** The serializer on sequences *)

Section serializer_laws.

Lemma format_join styles indent :
  format styles indent = join newline (map (block indent) styles).
Proof. unfold format. by rewrite fold_pushStyle, app_nil_l, join_flat_lines. Qed.

Lemma append_empty s t : s +:+ t = "" → s = "" ∧ t = "".
Proof. destruct s; [done|]. by rewrite append_cons. Qed.

Lemma block_not_empty indent style : block indent style ≠ "".
Proof.
  unfold block. intros [_ H]%append_empty. by apply append_empty in H as [? _].
Qed.

Lemma join_head_empty sep x l : join sep (x :: l) = "" → x = "".
Proof.
  destruct l as [|y l]; [done|]. rewrite join_cons.
  by intros [? _]%append_empty.
Qed.

(** X17.  The serializer gives the empty text exactly for the empty
    sequence, and the text of a sequence put together from two non-empty
    parts is the text of the first part, a newline, and the text of the
    second part. *)
Theorem format_sequences (styles more : list Style) (indent : nat) :
  (format styles indent = "" ↔ styles = [])
  ∧ (styles ≠ [] → more ≠ [] →
     format (styles ++ more) indent
       = format styles indent +:+ newline +:+ format more indent).
Proof.
  rewrite !format_join. split.
  - split; [|by intros ->]. destruct styles as [|style styles]; [done|].
    intros H%join_head_empty. by apply block_not_empty in H.
  - intros Hs Hm. rewrite map_app. apply join_app.
    + by destruct styles.
    + by destruct more.
Qed.

Lemma format_sequences_witness :
  format ([mkStyle ".first" ["color: red"]] ++ [mkStyle ".second" []]) 2
    = format [mkStyle ".first" ["color: red"]] 2 +:+ newline
      +:+ format [mkStyle ".second" []] 2.
Proof.
  by apply (proj2 (format_sequences [mkStyle ".first" ["color: red"]]
                     [mkStyle ".second" []] 2)).
Defined.

End serializer_laws.

(** ** The selector formatter *)

Section selector_formatter.

Lemma startsWithSpace_collapse s :
  startsWithSpace (collapseSpaces s) = startsWithSpace s.
Proof.
  induction s as [|c r IH]; [done|]. rewrite collapseSpaces_cons.
  destruct (Ascii.eqb c " " && startsWithSpace r)%bool eqn:E; [|done].
  apply andb_true_iff in E as [Hc Hr]. rewrite IH, Hr. simpl. by rewrite Hc.
Qed.

Lemma collapseSpaces_single s : doubleSpace (collapseSpaces s) = false.
Proof.
  induction s as [|c r IH]; [done|]. rewrite collapseSpaces_cons.
  destruct (Ascii.eqb c " " && startsWithSpace r)%bool eqn:E; [done|].
  simpl. by rewrite startsWithSpace_collapse, E, IH.
Qed.

Lemma allChars_append p s t :
  allChars p (s +:+ t) = (allChars p s && allChars p t)%bool.
Proof.
  induction s as [|c s IH]; [done|].
  rewrite append_cons. simpl. by rewrite IH, andb_assoc.
Qed.

Lemma isPlainChar_spec c :
  isPlainChar c = true →
  isWhiteSpace c = false ∧ Ascii.eqb c ">" = false ∧ Ascii.eqb c " " = false.
Proof.
  unfold isPlainChar. intros [Hw Hg]%andb_true_iff.
  apply negb_true_iff in Hw, Hg. repeat split; [done..|].
  by destruct (Ascii.eqb_spec c " ") as [->|].
Qed.

Lemma unspaced_trimEnd s :
  allChars (fun c => negb (isWhiteSpace c)) s = true → trimEnd s = s.
Proof.
  induction s as [|c r IH]; [done|]. simpl.
  intros [Hc Hr]%andb_true_iff. apply trimEnd_fixed_cons. split; [auto|].
  left. by apply negb_true_iff.
Qed.

Lemma unspaced_trim s :
  allChars (fun c => negb (isWhiteSpace c)) s = true → trim s = s.
Proof.
  intros H. unfold trim. rewrite unspaced_trimEnd by done.
  destruct s as [|c r]; [done|]. simpl in *.
  apply andb_true_iff in H as [Hc _]. apply negb_true_iff in Hc.
  by rewrite Hc.
Qed.

Lemma plain_unspaced s :
  allChars isPlainChar s = true →
  allChars (fun c => negb (isWhiteSpace c)) s = true
  ∧ occurs ">" s = false ∧ occurs " " s = false.
Proof.
  induction s as [|c r IH]; [done|]. simpl.
  intros [Hc Hr]%andb_true_iff. destruct (IH Hr) as (-> & -> & ->).
  apply isPlainChar_spec in Hc as (-> & -> & ->). done.
Qed.

Lemma spacesComma_cons pending c r :
  spacesComma pending (String c r)
    = if Ascii.eqb c " " then spacesComma (S pending) r
      else if Ascii.eqb c "," then
        (match pending with O => "," | S _ => ", " end) +:+ spacesComma 0 r
      else spaces pending +:+ String c (spacesComma 0 r).
Proof. reflexivity. Qed.

(** Text without space goes through the scan for spaces before commas
    unchanged. *)
Lemma spacesComma_unspaced s t :
  occurs " " s = false → spacesComma 0 (s +:+ t) = s +:+ spacesComma 0 t.
Proof.
  induction s as [|c r IH]; [done|]. simpl occurs.
  intros [Hc Hr]%orb_false_iff. rewrite append_cons, spacesComma_cons, Hc.
  rewrite IH by done. destruct (Ascii.eqb_spec c ",") as [->|]; done.
Qed.

Lemma doubleSpace_unspaced s t :
  occurs " " s = false → doubleSpace (s +:+ t) = doubleSpace t.
Proof.
  induction s as [|c r IH]; [done|]. simpl occurs.
  intros [Hc Hr]%orb_false_iff. rewrite append_cons. simpl.
  by rewrite Hc, IH.
Qed.

Lemma unspaced_single s : occurs " " s = false → doubleSpace s = false.
Proof.
  intros H. rewrite <- (append_empty_r s). by rewrite doubleSpace_unspaced.
Qed.

Lemma unspaced_start s : occurs " " s = false → startsWithSpace s = false.
Proof. destruct s as [|c r]; [done|]. simpl. by intros [? _]%orb_false_iff. Qed.

(** X18.  The selector formatter never leaves two spaces in a row, and it
    leaves a selector without white space and without [>] as it is. *)
Theorem formatSelector_shape (s : string) :
  doubleSpace (formatSelector s) = false
  ∧ (allChars isPlainChar s = true → formatSelector s = s).
Proof.
  split; [apply collapseSpaces_single|].
  intros (Hw & Hg & Hsp)%plain_unspaced. unfold formatSelector.
  rewrite unspaced_trim, replaceChar_absent by done.
  rewrite <- (append_empty_r s) at 1.
  rewrite spacesComma_unspaced, append_empty_r by done.
  by apply collapseSpaces_absent.
Qed.

Lemma formatSelector_shape_witness : formatSelector ".item:hover" = ".item:hover".
Proof. by apply (proj2 (formatSelector_shape ".item:hover")). Defined.

(** X19.  A child combinator written without spaces between two plain
    selectors gets one space on each side, and spaces in front of a comma
    that separates two plain selectors move behind it. *)
Theorem formatSelector_combinators (a b : string) :
  allChars isPlainChar a = true → allChars isPlainChar b = true →
  (headIs "," b = false →
   formatSelector (a +:+ ">" +:+ b) = a +:+ " > " +:+ b)
  ∧ (a ≠ "" → formatSelector (a +:+ " ," +:+ b) = a +:+ ", " +:+ b).
Proof.
  intros (Hwa & Hga & Hsa)%plain_unspaced (Hwb & Hgb & Hsb)%plain_unspaced.
  pose proof (unspaced_start b Hsb) as Hstart.
  assert (spacesComma 0 b = b) as Hb.
  { rewrite <- (append_empty_r b) at 1.
    by rewrite spacesComma_unspaced, append_empty_r. }
  split.
  - intros Hcomma. unfold formatSelector.
    rewrite unspaced_trim.
    2:{ rewrite !allChars_append, Hwa, Hwb. done. }
    rewrite !replaceChar_append.
    rewrite (replaceChar_absent _ _ a), (replaceChar_absent _ _ b) by done.
    change (replaceChar ">" " > " ">") with " > ".
    rewrite spacesComma_unspaced by done.
    assert (spacesComma 0 (" > " +:+ b) = " > " +:+ b) as ->.
    { change (" > " +:+ b) with (String " " (String ">" (String " " b))).
      rewrite !spacesComma_cons. simpl.
      destruct b as [|c r]; [done|]. rewrite spacesComma_cons.
      simpl in Hsb, Hcomma. apply orb_false_iff in Hsb as [Hc Hr].
      rewrite Hc.
      rewrite Hcomma.
      rewrite <- (append_empty_r r) at 1.
      by rewrite spacesComma_unspaced, append_empty_r. }
    apply doubleSpace_absent. rewrite doubleSpace_unspaced by done.
    change (" > " +:+ b) with (String " " (String ">" (String " " b))).
    simpl. rewrite Hstart. simpl.
    by apply unspaced_single.
  - intros Hne. unfold formatSelector.
    assert (trim (a +:+ " ," +:+ b) = a +:+ " ," +:+ b) as ->.
    { destruct a as [|c r]; [done|]. rewrite append_cons.
      simpl in Hwa. apply andb_true_iff in Hwa as [Hc Hr].
      apply negb_true_iff in Hc. apply trim_fixed; [done|].
      rewrite <- append_cons. apply trimEnd_append; [|done].
      change (" ," +:+ b) with (" " +:+ String "," b).
      apply trimEnd_append; [|done].
      apply trimEnd_fixed_cons. split; [by apply unspaced_trimEnd|by left]. }
    rewrite !replaceChar_append.
    rewrite (replaceChar_absent _ _ a), (replaceChar_absent _ _ b) by done.
    change (replaceChar ">" " > " " ,") with " ,".
    rewrite spacesComma_unspaced by done.
    change (" ," +:+ b) with (String " " (String "," b)).
    rewrite !spacesComma_cons. simpl. rewrite Hb.
    apply doubleSpace_absent. rewrite doubleSpace_unspaced by done.
    change (", " +:+ b) with (String "," (String " " b)).
    simpl. rewrite Hstart. simpl.
    by apply unspaced_single.
Qed.

Lemma formatSelector_combinators_witness :
  formatSelector ".parent>.child" = ".parent > .child"
  ∧ formatSelector ".a ,.b" = ".a, .b".
Proof.
  destruct (formatSelector_combinators ".parent" ".child" eq_refl eq_refl)
    as [H1 _].
  destruct (formatSelector_combinators ".a" ".b" eq_refl eq_refl) as [_ H2].
  split; [exact (H1 eq_refl) | apply H2; discriminate].
Defined.

End selector_formatter.

(** ** The entries of a normalized list *)

Section entries.

Lemma trim_absent c s : occurs c s = false → occurs c (trim s) = false.
Proof.
  intros H. unfold trim.
  assert (occurs c (trimEnd s) = false) as He.
  { induction s as [|c0 r IH]; [done|]. simpl in H.
    apply orb_false_iff in H as [Hc Hr]. rewrite trimEnd_cons.
    destruct (isWhiteSpace c0 && negb (truthy (trimEnd r)))%bool; [done|].
    simpl. by rewrite Hc, IH. }
  clear H. induction (trimEnd s) as [|c0 r IH]; [done|]. simpl.
  simpl in He. apply orb_false_iff in He as [Hc Hr].
  destruct (isWhiteSpace c0); [by apply IH|]. simpl. by rewrite Hc, Hr.
Qed.

Lemma split_absent c sep s :
  occurs c s = false → Forall (fun t => occurs c t = false) (split sep s).
Proof.
  induction s as [|c0 r IH]; [by repeat constructor|]. simpl.
  intros [Hc Hr]%orb_false_iff. specialize (IH Hr).
  destruct (Ascii.eqb c0 sep); [by constructor|].
  destruct (split sep r) as [|p ps]; [by repeat constructor; simpl; rewrite Hc|].
  inversion_clear IH as [|? ? Hp Hps]. constructor; [|done].
  simpl. by rewrite Hc, Hp.
Qed.

Lemma join_absent c sep l :
  occurs c sep = false → Forall (fun t => occurs c t = false) l →
  occurs c (join sep l) = false.
Proof.
  intros Hsep. induction l as [|x [|y l] IH]; [done| |].
  - by intros [? _]%Forall_cons.
  - intros [Hx Hl]%Forall_cons.
    by rewrite join_cons, !occurs_append, Hx, Hsep, IH.
Qed.

Lemma split_twice sep s :
  occurs sep s = true → ∃ x y l, split sep s = x :: y :: l.
Proof.
  induction s as [|c r IH]; [done|]. simpl. rewrite Ascii.eqb_sym.
  destruct (Ascii.eqb sep c) eqn:E.
  - intros _. pose proof (split_not_nil sep r).
    destruct (split sep r) as [|y l]; [done|]. eauto.
  - simpl. intros (x & y & l & ->)%IH. eauto.
Qed.

Lemma normalize_not_empty fragment : kept fragment = true → normalize fragment ≠ "".
Proof.
  intros Hk. unfold normalize.
  destruct (occurs ":" fragment) eqn:E.
  - apply split_twice in E as (x & y & l & ->). cbn [map].
    rewrite join_cons. intros [_ H]%append_empty. by apply append_empty in H as [? _].
  - rewrite split_whole by done. simpl. unfold kept in Hk. by destruct (trim fragment).
Qed.

(** X20.  No entry of a normalized property list is empty and none holds a
    semicolon. *)
Theorem formatProps_entries (style : option string) (entry : string) :
  entry ∈ formatProps style → entry ≠ "" ∧ occurs ";" entry = false.
Proof.
  destruct style as [text|]; [|by intros ?%elem_of_nil].
  rewrite formatProps_text, sort_perm.
  intros (fragment & -> & Hf)%list_elem_of_fmap.
  apply list_elem_of_In, List.filter_In in Hf as [Hf Hk].
  split; [by apply normalize_not_empty|].
  apply join_absent; [done|]. apply Forall_fmap.
  eapply Forall_impl; [apply split_absent|].
  - pose proof (split_pieces ";" text) as Hp. rewrite Forall_forall in Hp.
    by apply Hp, list_elem_of_In.
  - intros piece. apply trim_absent.
Qed.

Lemma formatProps_entries_witness :
  "margin: 0" ≠ "" ∧ occurs ";" "margin: 0" = false.
Proof.
  apply (formatProps_entries (Some "margin:0; color: red;")).
  apply list_elem_of_further, list_elem_of_here.
Defined.

End entries.

(** ** Seeing the same pair twice *)

Section twice.

Lemma upsert_first result value newProps :
  (Forall (fun style => compareSelector (selector style) value = false) result
   ∧ upsert result value newProps = result ++ [mkStyle value newProps])
  ∨ (∃ i style,
       result !! i = Some style
       ∧ compareSelector (selector style) value = true
       ∧ (∀ j other, j < i → result !! j = Some other →
                     compareSelector (selector other) value = false)
       ∧ upsert result value newProps
           = <[i := mkStyle (selector style)
                            (mergeProps (props style) newProps)]> result).
Proof.
  destruct (findIndex_cases
              (fun style => compareSelector (selector style) value) result)
    as [[_ Hall]|(k & x & _ & Hx & Hpx & Hk)].
  - left. split; [done|]. by apply upsert_new.
  - right. exists k, x. repeat split; [done..|]. by apply upsert_found.
Qed.

(** X21.  Merging the same selector with the same sorted property list a
    second time changes nothing. *)
Theorem upsert_twice (result : list Style) (value : string)
    (newProps : list string) :
  Sorted String.le newProps →
  upsert (upsert result value newProps) value newProps
    = upsert result value newProps.
Proof.
  intros Hs.
  destruct (upsert_first result value newProps)
    as [[Hall ->]|(i & style & Hi & Hp & Hbefore & ->)].
  - rewrite (upsert_found _ value newProps (length result)
               (mkStyle value newProps)).
    + simpl. rewrite mergeProps_self by done.
      apply list_insert_id. by rewrite list_lookup_middle.
    + by rewrite list_lookup_middle.
    + apply compareSelector_refl.
    + intros j other Hj Hother. rewrite lookup_app_l in Hother by done.
      rewrite Forall_forall in Hall. apply Hall.
      by eapply list_elem_of_lookup_2.
  - pose proof (lookup_lt_Some _ _ _ Hi) as Hlt.
    rewrite (upsert_found _ value newProps i
               (mkStyle (selector style) (mergeProps (props style) newProps))).
    + simpl. rewrite list_insert_insert_eq. do 2 f_equal.
      unfold mergeProps at 1. rewrite fold_pushNew_included.
      * apply sort_sorted, mergeProps_Sorted.
      * intros x Hx. apply mergeProps_elem. by right.
    + by apply list_lookup_insert_eq.
    + done.
    + intros j other Hj Hother.
      rewrite list_lookup_insert_ne in Hother by lia. by eapply Hbefore.
Qed.

Lemma upsert_twice_witness :
  upsert (upsert [mkStyle ".a" ["x: 1"]] ".a" ["color: red"]) ".a" ["color: red"]
    = upsert [mkStyle ".a" ["x: 1"]] ".a" ["color: red"].
Proof. apply upsert_twice. repeat constructor. Defined.

End twice.
